(** * N-body simulation: a shallow embedding of method.py, main.py and database.py

    Numbers are modelled as real numbers ([R]): every float of the program
    is read as the real it denotes and every float operation as the exact
    operation, so rounding, overflow, underflow and the non-finite values
    of IEEE arithmetic are outside the model.  A numpy array of shape (3,) is a
    [Vec3]; the list of bodies is a [list Body] in which every slot is an
    object of its own, as every provider of database.py builds it (one
    [Object(...)] call per slot, each array copied by [np.array]). *)

From Stdlib Require Import Reals Lra Psatz Ascii.
From stdpp Require Import gmap strings list fin_maps pretty.
From Equations Require Import Equations.

(** ** Vectors: numpy arrays of shape (3,) *)

Record Vec3 : Type := mkVec3 { vx : R; vy : R; vz : R }.

Module Vec.
Local Open Scope R_scope.

(** [np.zeros(3)] *)
Definition zeros : Vec3 := mkVec3 0 0 0.

(** [a + b] *)
Definition add (a b : Vec3) : Vec3 :=
  mkVec3 (vx a + vx b) (vy a + vy b) (vz a + vz b).

(** [a - b] *)
Definition sub (a b : Vec3) : Vec3 :=
  mkVec3 (vx a - vx b) (vy a - vy b) (vz a - vz b).

(** [k * a] and [a * k] for a scalar [k] *)
Definition scale (k : R) (a : Vec3) : Vec3 :=
  mkVec3 (k * vx a) (k * vy a) (k * vz a).

(** [a / k] for a scalar [k] *)
Definition div (a : Vec3) (k : R) : Vec3 :=
  mkVec3 (vx a / k) (vy a / k) (vz a / k).

(** [np.linalg.norm(a)] *)
Definition norm (a : Vec3) : R :=
  sqrt (vx a * vx a + vy a * vy a + vz a * vz a).

(** The sum of a list of vectors, from [zeros], left to right. *)
Definition sum (l : list Vec3) : Vec3 := fold_left add l zeros.
End Vec.

(** ** Bodies: the class [Object] of method.py and database.py *)

Record Body : Type := mkBody {
  name : string;
  mass : R;
  position : Vec3;
  velocity : Vec3;
  acceleration : Vec3
}.

Definition set_acceleration (a : Vec3) (b : Body) : Body :=
  mkBody (name b) (mass b) (position b) (velocity b) a.

Definition set_position (p : Vec3) (b : Body) : Body :=
  mkBody (name b) (mass b) p (velocity b) (acceleration b).

Definition set_velocity (v : Vec3) (b : Body) : Body :=
  mkBody (name b) (mass b) (position b) v (acceleration b).

(** [enumerate(l)] *)
Definition enumerate {A : Type} (l : list A) : list (nat * A) :=
  imap (fun i x => (i, x)) l.

(** ** method.py: compute_gravitational_accelerations *)

(** [G = 6.67430e-20] *)
Definition G : R := 6.67430e-20%R.

(** The term added to [total_acc] for the pair (obj_i, obj_j):
    [G * obj_j.mass * r_vec / r_mag**3]. *)
Definition pair_term (obj_i obj_j : Body) : Vec3 :=
  let r_vec := Vec.sub (position obj_j) (position obj_i) in
  let r_mag := Vec.norm r_vec in
  Vec.div (Vec.scale (G * mass obj_j)%R r_vec) (r_mag ^ 3)%R.

(** What one turn of the inner loop [for j, obj_j in enumerate(bodies)]
    adds to [total_acc]; [None] where the turn ends in [continue].  The
    test [r_mag == 0] and the divisor [r_mag**3] are real numbers here: in
    the program [r_mag**3] can underflow to 0.0 while [r_mag] is not 0,
    which this definition does not show. *)
Definition pull (i : nat) (obj_i : Body) (jo : nat * Body) : option Vec3 :=
  if Nat.eqb i jo.1 then None
  else
    let r_vec := Vec.sub (position jo.2) (position obj_i) in
    let r_mag := Vec.norm r_vec in
    if Req_EM_T r_mag 0 then None
    else Some (pair_term obj_i jo.2).

Definition accumulate (i : nat) (obj_i : Body) (total_acc : Vec3)
    (jo : nat * Body) : Vec3 :=
  match pull i obj_i jo with
  | None => total_acc
  | Some term => Vec.add total_acc term
  end.

(** The value of [total_acc] when the inner loop for body [i] ends. *)
Definition total_acc (bodies : list Body) (i : nat) (obj_i : Body) : Vec3 :=
  fold_left (accumulate i obj_i) (enumerate bodies) Vec.zeros.

(** One turn of the outer loop: [obj_i.acceleration = total_acc], on the
    list as the earlier turns left it. *)
Definition accelerate (bodies : list Body) (i : nat) : list Body :=
  match bodies !! i with
  | Some obj_i => <[i := set_acceleration (total_acc bodies i obj_i) obj_i]> bodies
  | None => bodies
  end.

Definition compute_gravitational_accelerations (bodies : list Body) : list Body :=
  fold_left accelerate (seq 0 (length bodies)) bodies.

(** ** method.py: verlet_integration *)

(** [old_accelerations = [np.copy(obj.acceleration) for obj in bodies]] *)
Definition old_accelerations (bodies : list Body) : list Vec3 :=
  map acceleration bodies.

(** [obj.position += obj.velocity * dt + 0.5 * old_accelerations[i] * dt**2];
    [i] runs over the slots of [bodies] and [old_accelerations] has the
    length of [bodies], so neither lookup fails in a run of the loop. *)
Definition move (dt : R) (olds : list Vec3) (bodies : list Body) (i : nat)
    : list Body :=
  match bodies !! i, olds !! i with
  | Some obj, Some a_old =>
      <[i := set_position
               (Vec.add (position obj)
                  (Vec.add (Vec.scale dt (velocity obj))
                     (Vec.scale (dt ^ 2)%R (Vec.scale 0.5%R a_old))))
               obj]> bodies
  | _, _ => bodies
  end.

(** [obj.velocity += 0.5 * (old_accelerations[i] + obj.acceleration) * dt] *)
Definition kick (dt : R) (olds : list Vec3) (bodies : list Body) (i : nat)
    : list Body :=
  match bodies !! i, olds !! i with
  | Some obj, Some a_old =>
      <[i := set_velocity
               (Vec.add (velocity obj)
                  (Vec.scale dt
                     (Vec.scale 0.5%R (Vec.add a_old (acceleration obj)))))
               obj]> bodies
  | _, _ => bodies
  end.

Definition verlet_integration (bodies : list Body) (dt : R) : list Body :=
  let olds := old_accelerations bodies in
  let moved := fold_left (move dt olds) (seq 0 (length bodies)) bodies in
  let pulled := compute_gravitational_accelerations moved in
  fold_left (kick dt olds) (seq 0 (length pulled)) pulled.

(** ** method.py: check_and_merge_collisions *)

(** The body that [bodies[i]] becomes when [bodies[j]] is merged into it;
    its acceleration is not assigned and stays as it was. *)
Definition merged (obj_i obj_j : Body) : Body :=
  let m1 := mass obj_i in
  let m2 := mass obj_j in
  let M := (m1 + m2)%R in
  let new_position :=
    Vec.div (Vec.add (Vec.scale m1 (position obj_i))
                     (Vec.scale m2 (position obj_j))) M in
  let new_velocity :=
    Vec.div (Vec.add (Vec.scale m1 (velocity obj_i))
                     (Vec.scale m2 (velocity obj_j))) M in
  let new_name := name obj_i +:+ "+" +:+ name obj_j in
  mkBody new_name M new_position new_velocity (acceleration obj_i).

(** [np.linalg.norm(bodies[i].position - bodies[j].position)] *)
Definition dist (obj_i obj_j : Body) : R :=
  Vec.norm (Vec.sub (position obj_i) (position obj_j)).

(** The inner loop [while j < len(bodies)] for a fixed [i]: a merge
    rewrites slot [i], pops slot [j] ([bodies.pop(j)], the later slots
    moving down by one) and leaves [j] where it is.  The two [print] calls
    of a merge write to the terminal only and are left out.  The loop
    starts at [j = i + 1], so [i < j < len(bodies)] at every turn and
    neither [bodies[i]] nor [bodies[j]] fails. *)
Equations? inner_scan (collision_distance : R) (i j : nat) (bodies : list Body)
    : list Body by wf (length bodies - j) lt :=
  inner_scan collision_distance i j bodies with decide (j < length bodies) => {
    | right _ := bodies
    | left _ with bodies !! i, bodies !! j => {
        | Some obj_i, Some obj_j with
            Rlt_dec (dist obj_i obj_j) collision_distance => {
            | left _ :=
                inner_scan collision_distance i j
                  (delete j (<[i := merged obj_i obj_j]> bodies))
            | right _ := inner_scan collision_distance i (S j) bodies }
        | _, _ := bodies } }.
Proof.
  - rewrite length_delete, length_insert; [lia |].
    apply lookup_lt_is_Some. by rewrite length_insert.
  - lia.
Qed.

Lemma inner_scan_length collision_distance i j bodies :
  length (inner_scan collision_distance i j bodies) <= length bodies.
Proof.
  funelim (inner_scan collision_distance i j bodies); try lia.
  match goal with H : length _ <= length (delete _ _) |- _ =>
    rewrite length_delete, length_insert in H
  end; [lia |].
  apply lookup_lt_is_Some. by rewrite length_insert.
Qed.

(** The outer loop [while i < len(bodies)]. *)
Equations? outer_scan (collision_distance : R) (i : nat) (bodies : list Body)
    : list Body by wf (length bodies - i) lt :=
  outer_scan collision_distance i bodies with decide (i < length bodies) => {
    | left _ :=
        outer_scan collision_distance (S i)
          (inner_scan collision_distance i (S i) bodies)
    | right _ := bodies }.
Proof.
  pose proof (inner_scan_length collision_distance i (S i) bodies). lia.
Qed.

Definition check_and_merge_collisions (bodies : list Body)
    (collision_distance : R) : list Body :=
  outer_scan collision_distance 0 bodies.


(** ** main.py: the snapshot block and the simulation loop *)

(** [snapshot[obj.name] = [obj.position[0], obj.position[1], obj.position[2]]] *)
Definition record_body (snapshot : gmap string (list R)) (obj : Body)
    : gmap string (list R) :=
  <[name obj := [vx (position obj); vy (position obj); vz (position obj)]]>
    snapshot.

(** [snapshot = {}] followed by [for obj in bodies: ...] *)
Definition take_snapshot (bodies : list Body) : gmap string (list R) :=
  fold_left record_body bodies ∅.

(** [dt = 36000] *)
Definition dt : R := 36000%R.

(** The state of the run: the list [bodies] and the list [Data]. *)
Record Run : Type := mkRun {
  store : list Body;
  Data : list (gmap string (list R))
}.

(** One turn of [for step in range(steps)]; [np.save] writes [Data] to a
    file and changes neither [bodies] nor [Data]. *)
Definition turn (run : Run) (step : nat) : Run :=
  let integrated := verlet_integration (store run) dt in
  let resolved := check_and_merge_collisions integrated 1e7%R in
  if Nat.eqb (step mod 10) 0
  then mkRun resolved (Data run ++ [take_snapshot resolved])
  else mkRun resolved (Data run).

(** The script from the priming call on: [compute_gravitational_accelerations],
    [Data = []], then the loop, [steps] being [876 * num_years]. *)
Definition simulate (bodies : list Body) (steps : nat) : Run :=
  fold_left turn (seq 0 steps)
    (mkRun (compute_gravitational_accelerations bodies) []).

(** ** Animation.py: what is read off the saved snapshots *)

Module Animation.

(** [TRAIL_LENGTH = 20000] *)
Definition TRAIL_LENGTH : nat := 20000.

(** The set [object_names], filled by [object_names.update(snapshot.keys())]
    for every snapshot; the script then sorts it into a list. *)
Definition object_names (data : list (gmap string (list R))) : gset string :=
  fold_left (fun names snapshot => names ∪ dom snapshot) data ∅.

(** [data[max(0, frame - TRAIL_LENGTH):frame + 1]]; on [nat] the
    subtraction stops at 0 as [max(0, ...)] does. *)
Definition window (data : list (gmap string (list R))) (frame : nat)
    : list (gmap string (list R)) :=
  take (frame + 1 - (frame - TRAIL_LENGTH)) (drop (frame - TRAIL_LENGTH) data).

(** [[snap[name][:3] for snap in data[...] if name in snap]] *)
Definition trail_data (data : list (gmap string (list R))) (frame : nat)
    (name : string) : list (list R) :=
  omap (fun snap : gmap string (list R) => take 3 <$> snap !! name)
       (window data frame).

(** What [update(frame)] does for one name of [object_names]: [None] for
    the IndexError of [data[frame]], [Some None] where the name is not in
    the snapshot and its artists are hidden, and the point and the trail
    drawn otherwise. *)
Definition update (data : list (gmap string (list R))) (frame : nat)
    (name : string) : option (option (list R * list (list R))) :=
  match data !! frame with
  | None => None
  | Some current_snapshot =>
      match current_snapshot !! name with
      | Some obj_data =>
          Some (Some (take 3 obj_data, trail_data data frame name))
      | None => Some None
      end
  end.

(** [[pos for snapshot in data for pos in snapshot.values()]]; within a
    snapshot the rows come in the order of the map, not of insertion, which
    the minimum and the maximum taken of them do not depend on. *)
Definition all_positions (data : list (gmap string (list R)))
    : list (list R) :=
  data ≫= (fun snapshot => (map_to_list snapshot).*2).

(** [np.array(rows)[:, k]]: the column, where the rows make a 2-D array
    that has a column [k]; no rows give a 1-D array, which [[:, k]]
    refuses, and rows of different lengths give no 2-D array. *)
Definition column (k : nat) (rows : list (list R)) : option (list R) :=
  match rows with
  | [] => None
  | row :: _ =>
      if forallb (fun r => Nat.eqb (length r) (length row)) rows
      then mapM (fun r => r !! k) rows
      else None
  end.

(** [np.min] and [np.max] of a 1-D array; the empty one is refused. *)
Definition np_min (xs : list R) : option R :=
  match xs with
  | [] => None
  | x :: xs => Some (fold_left Rmin xs x)
  end.

Definition np_max (xs : list R) : option R :=
  match xs with
  | [] => None
  | x :: xs => Some (fold_left Rmax xs x)
  end.

(** The limits of axis [k]: [x_min - x_pad] and [x_max + x_pad] with
    [x_pad = (x_max - x_min) * padding], [padding = 0.1]. *)
Definition limits (k : nat) (data : list (gmap string (list R)))
    : option (R * R) :=
  match column k (all_positions data) with
  | None => None
  | Some xs =>
      match np_min xs, np_max xs with
      | Some x_min, Some x_max =>
          let x_pad := ((x_max - x_min) * 0.1)%R in
          Some ((x_min - x_pad)%R, (x_max + x_pad)%R)
      | _, _ => None
      end
  end.
End Animation.

(** ** database.py: Object and get_objects_from_user *)

Module database.

(** An object as [Object.__init__] leaves it: the arrays have the length
    of the lists they were built from. *)
Record Object : Type := mkObject {
  name : string;
  mass : R;
  position : list R;
  velocity : list R;
  acceleration : list R
}.

(** [Object.__init__(self, name, mass, position, velocity)] *)
Definition Object_init (name : string) (mass : R)
    (position velocity : list R) : Object :=
  mkObject name mass position velocity [0%R; 0%R; 0%R].

(** What a call that reads the terminal comes to. *)
Inductive outcome (A : Type) : Type :=
| Returned (a : A) (stdin : list string)
| ValueError
| EOFError.
Arguments Returned {A} a stdin.
Arguments ValueError {A}.
Arguments EOFError {A}.

Definition bind {A B : Type} (c : outcome A)
    (k : A -> list string -> outcome B) : outcome B :=
  match c with
  | Returned a stdin => k a stdin
  | ValueError => ValueError
  | EOFError => EOFError
  end.

(** [input(...)]: the next line of the terminal. *)
Definition input (stdin : list string) : outcome string :=
  match stdin with
  | [] => EOFError
  | line :: rest => Returned line rest
  end.

Section Provider.
(** The builtins [float] ([None] for the ValueError it raises) and
    [str.split]. *)
Variable float : string -> option R.
Variable split : string -> list string.

(** [list(map(float, line.split()))] *)
Definition floats (line : string) : option (list R) :=
  mapM float (split line).

(** The [while True] loop around a vector prompt: a line that does not
    give exactly 3 floats raises ValueError inside the [try], which the
    [except] turns into another prompt. *)
Fixpoint prompt_vector (stdin : list string) : outcome (list R) :=
  match stdin with
  | [] => EOFError
  | line :: rest =>
      match floats line with
      | Some pos =>
          if Nat.eqb (length pos) 3 then Returned pos rest
          else prompt_vector rest
      | None => prompt_vector rest
      end
  end.

(** The body of [for i in range(num_bodies)]. *)
Definition enter_object (stdin : list string) : outcome Object :=
  bind (input stdin) (fun name stdin =>
  bind (input stdin) (fun mass_line stdin =>
  match float mass_line with
  | None => ValueError
  | Some mass =>
      bind (prompt_vector stdin) (fun pos stdin =>
      bind (prompt_vector stdin) (fun vel stdin =>
      Returned (Object_init name mass pos vel) stdin))
  end)).

Fixpoint enter_objects (num_bodies : nat) (bodies : list Object)
    (stdin : list string) : outcome (list Object) :=
  match num_bodies with
  | O => Returned bodies stdin
  | S n =>
      bind (enter_object stdin) (fun obj stdin =>
      enter_objects n (bodies ++ [obj]) stdin)
  end.

Definition get_objects_from_user (num_bodies : nat) (stdin : list string)
    : outcome (list Object) :=
  enter_objects num_bodies [] stdin.
End Provider.

(** A line the vector prompt does not take: it does not give 3 floats. *)
Definition malformed (float : string -> option R)
    (split : string -> list string) (line : string) : Prop :=
  forall v, floats float split line = Some v -> length v ≠ 3.

(** [str.split()] with no argument: the words between runs of blanks. *)
Definition is_blank (c : Ascii.ascii) : bool :=
  let n := Ascii.nat_of_ascii c in
  Nat.eqb n 32 || (Nat.leb 9 n && Nat.leb n 13) || (Nat.leb 28 n && Nat.leb n 31).

Fixpoint words_from (word : string) (s : string) : list string :=
  match s with
  | EmptyString => if decide (word = EmptyString) then [] else [word]
  | String c rest =>
      if is_blank c
      then if decide (word = EmptyString) then words_from EmptyString rest
           else word :: words_from EmptyString rest
      else words_from (word +:+ String c EmptyString) rest
  end.

Definition str_split (s : string) : list string := words_from EmptyString s.

(** [float] on the literals of the sample sessions: decimal digits, with a
    minus sign before them or not.  Python's [float] accepts more (blanks
    around the literal, a fraction, an exponent, inf and nan); such strings
    are not used in the samples and count as ValueError here. *)
Definition digit (c : Ascii.ascii) : option Z :=
  let n := Ascii.nat_of_ascii c in
  if Nat.leb 48 n && Nat.leb n 57 then Some (Z.of_nat (n - 48)) else None.

Fixpoint digits (value : Z) (s : string) : option Z :=
  match s with
  | EmptyString => Some value
  | String c rest =>
      match digit c with
      | Some d => digits (10 * value + d) rest
      | None => None
      end
  end.

Definition float_literal (s : string) : option R :=
  match s with
  | EmptyString => None
  | String "-"%char EmptyString => None
  | String "-"%char rest => (fun n => IZR (- n)) <$> digits 0 rest
  | _ => IZR <$> digits 0 s
  end.

(** The body of method.py that an object with arrays of shape (3,) is. *)
Definition as_vec3 (a : list R) : option Vec3 :=
  match a with
  | [x; y; z] => Some (mkVec3 x y z)
  | _ => None
  end.

Definition as_body (o : Object) : option Body :=
  match as_vec3 (position o), as_vec3 (velocity o), as_vec3 (acceleration o) with
  | Some p, Some v, Some a => Some (mkBody (name o) (mass o) p v a)
  | _, _, _ => None
  end.

(** An object whose position and velocity have 3 components, and which is
    a body of method.py. *)
Definition shaped (o : Object) : Prop :=
  length (position o) = 3 /\ length (velocity o) = 3 /\ is_Some (as_body o).

(** *** get_star_cluster *)

(** The list a numpy array of shape (3,) is handed over as. *)
Definition array (v : Vec3) : list R := [vx v; vy v; vz v].

(** [R = 5e9] and [v_scale = 5.0] *)
Definition cluster_radius : R := 5e9%R.
Definition v_scale : R := 5.0%R.

Section Cluster.
(** The generator behind [np.random], as a state of type [rng] with its two
    calls: [np.random.normal(loc, scale, size=3)] and
    [np.random.uniform(low, high)], each giving the value drawn and the
    generator after the draw. *)
Variable rng : Type.
Variable normal3 : R -> R -> rng -> Vec3 * rng.
Variable uniform : R -> R -> rng -> R * rng.

(** One turn of [for i in range(n_stars)]: the four draws in the order of
    the source, and the object appended. *)
Definition draw_star (i : nat) (g : rng) : Object * rng :=
  let '(pos, g) := normal3 0 1 g in
  let pos := Vec.div pos (Vec.norm pos) in
  let '(r, g) := uniform 0 cluster_radius g in
  let pos := Vec.scale r pos in
  let '(mass, g) := uniform 1e29 2e31 g in
  let '(vel, g) := normal3 0 v_scale g in
  (Object_init ("Star" +:+ pretty (i + 1)) mass (array pos) (array vel), g).

Definition get_star_cluster (n_stars : nat) (g : rng) : list Object * rng :=
  fold_left
    (fun (st : list Object * rng) i =>
       let '(o, g') := draw_star i st.2 in (st.1 ++ [o], g'))
    (seq 0 n_stars) ([], g).
End Cluster.

(** A generator that always draws the same: the lower end for [uniform]
    and [(loc + scale, loc, loc)] for [normal]. *)
Definition steady_normal3 (loc scale : R) (g : unit) : Vec3 * unit :=
  (mkVec3 (loc + scale) loc loc, g).
Definition steady_uniform (low high : R) (g : unit) : R * unit := (low, g).
End database.

(** ** The quantities the specification speaks of *)

Global Instance Vec3_eq_dec : EqDecision Vec3.
Proof.
  intros [x1 y1 z1] [x2 y2 z2].
  destruct (Req_EM_T x1 x2) as [-> | Hx]; [| right; congruence].
  destruct (Req_EM_T y1 y2) as [-> | Hy]; [| right; congruence].
  destruct (Req_EM_T z1 z2) as [-> | Hz]; [| right; congruence].
  by left.
Defined.

(** [G * mass_j * (pos_j - pos_i) / |pos_j - pos_i|^3] *)
Definition newton_term (pos_i : Vec3) (obj_j : Body) : Vec3 :=
  Vec.scale
    (G * mass obj_j / (Vec.norm (Vec.sub (position obj_j) pos_i) ^ 3))%R
    (Vec.sub (position obj_j) pos_i).

(** The bodies of the slots other than [i] whose position differs from
    [pos_i], in the order of the list. *)
Definition attractors (bodies : list Body) (i : nat) (pos_i : Vec3)
    : list Body :=
  (filter (fun jo : nat * Body => (jo.1 ≠ i) ∧ (position jo.2 ≠ pos_i))
          (enumerate bodies)).*2.

(** The same with slot [j] left out as well. *)
Definition attractors_without (j : nat) (bodies : list Body) (i : nat)
    (pos_i : Vec3) : list Body :=
  (filter (fun jo : nat * Body =>
             (jo.1 ≠ i) ∧ (jo.1 ≠ j) ∧ (position jo.2 ≠ pos_i))
          (enumerate bodies)).*2.

(** The sum of the Newtonian terms of a list of bodies on a body at
    [pos_i]. *)
Definition gravity_sum (pos_i : Vec3) (others : list Body) : Vec3 :=
  Vec.sum (newton_term pos_i <$> others).

(** [pos + vel*dt + 0.5*a_old*dt^2], with [a_old] the stored acceleration. *)
Definition drifted (dt : R) (b : Body) : Vec3 :=
  Vec.add (Vec.add (position b) (Vec.scale dt (velocity b)))
          (Vec.scale (0.5 * dt ^ 2)%R (acceleration b)).

(** [vel + 0.5*(a_old + a_new)*dt] *)
Definition kicked (dt : R) (vel a_old a_new : Vec3) : Vec3 :=
  Vec.add vel (Vec.scale (0.5 * dt)%R (Vec.add a_old a_new)).

(** The list when every position has been updated and nothing else. *)
Definition all_moved (dt : R) (bodies : list Body) : list Body :=
  (fun b => set_position (drifted dt b) b) <$> bodies.

(** Total momentum: the sum of [mass_i * velocity_i]. *)
Definition momentum (bodies : list Body) : Vec3 :=
  Vec.sum ((fun b => Vec.scale (mass b) (velocity b)) <$> bodies).

(** The sum of [mass_i * acceleration_i]. *)
Definition net_force (bodies : list Body) : Vec3 :=
  Vec.sum ((fun b => Vec.scale (mass b) (acceleration b)) <$> bodies).

(** The acceleration that [obj_j] gives [obj_i], as a vector: the term of
    the inner loop, and zero where the loop skips a zero separation. *)
Definition tug (obj_i obj_j : Body) : Vec3 :=
  if Req_EM_T (Vec.norm (Vec.sub (position obj_j) (position obj_i))) 0
  then Vec.zeros
  else pair_term obj_i obj_j.

(** [a_new] for a body of the list: what the force evaluation gives it
    once every position has been updated. *)
Definition new_acceleration (dt : R) (bodies : list Body) (b : Body) : Vec3 :=
  Vec.sum (tug (set_position (drifted dt b) b) <$> all_moved dt bodies).

(** [n] calls of [verlet_integration] in a row, with no merge between. *)
Definition verlet_steps (n : nat) (dt : R) (bodies : list Body) : list Body :=
  Nat.iter n (fun bs => verlet_integration bs dt) bodies.

(** The accelerations stored in the bodies are the ones the force
    evaluation gives for their present positions. *)
Definition primed (bodies : list Body) : Prop :=
  compute_gravitational_accelerations bodies = bodies.

(** [[obj.position[0], obj.position[1], obj.position[2]]] *)
Definition coordinates (obj : Body) : list R :=
  [vx (position obj); vy (position obj); vz (position obj)].

(** The body a name stands for in a snapshot: the last one of that name. *)
Definition last_named (nm : string) (bodies : list Body) : option Body :=
  last (filter (fun b => name b = nm) bodies).

(** The sum of the masses. *)
Definition total_mass (bodies : list Body) : R :=
  foldr Rplus 0%R (mass <$> bodies).

(** The sum of [mass_i * position_i]: the centre of mass times the total
    mass. *)
Definition mass_moment (bodies : list Body) : Vec3 :=
  Vec.sum ((fun b => Vec.scale (mass b) (position b)) <$> bodies).

(** No body of a later slot is closer than [collision_distance] to a body
    of an earlier slot. *)
Definition separated (collision_distance : R) (bodies : list Body) : Prop :=
  forall i j obj_i obj_j,
    i < j -> bodies !! i = Some obj_i -> bodies !! j = Some obj_j ->
    (collision_distance <= dist obj_i obj_j)%R.

(** A body moved by [d], everything else kept. *)
Definition shifted (d : Vec3) (b : Body) : Body :=
  set_position (Vec.add (position b) d) b.

(** ** Sample bodies *)

(** A body at rest on the x axis, with no stored acceleration. *)
Definition at_rest (nm : string) (m x : R) : Body :=
  mkBody nm m (mkVec3 x 0 0) Vec.zeros Vec.zeros.

(** The two bodies of the specification's example scenario. *)
Definition earth : Body := at_rest "Earth" 5.972e24 0.
Definition moon : Body := at_rest "Moon" 7.348e22 3.844e5.

(** A third body, at the place of [earth]. *)
Definition theia : Body := at_rest "Theia" 6.4e23 0.

(** Two bodies of one name, 1e8 km apart. *)
Definition twin_near : Body := at_rest "A" 1 0.
Definition twin_far : Body := at_rest "A" 1 1e8.

(** A body at the origin, at rest, whose stored acceleration is not the one
    the force evaluation would give it. *)
Definition pushed : Body :=
  mkBody "probe" 1 Vec.zeros Vec.zeros (mkVec3 1 0 0).

(** ** Vector algebra *)

Section VecFacts.
Local Open Scope R_scope.

Lemma vec_eq (a b : Vec3) :
  vx a = vx b -> vy a = vy b -> vz a = vz b -> a = b.
Proof. destruct a, b; simpl; congruence. Qed.

Lemma add_zeros_l a : Vec.add Vec.zeros a = a.
Proof. apply vec_eq; simpl; lra. Qed.

Lemma add_zeros_r a : Vec.add a Vec.zeros = a.
Proof. apply vec_eq; simpl; lra. Qed.

Lemma add_assoc a b c : Vec.add (Vec.add a b) c = Vec.add a (Vec.add b c).
Proof. apply vec_eq; simpl; lra. Qed.

Lemma scale_add k a b :
  Vec.scale k (Vec.add a b) = Vec.add (Vec.scale k a) (Vec.scale k b).
Proof. apply vec_eq; simpl; lra. Qed.

Lemma scale_zeros k : Vec.scale k Vec.zeros = Vec.zeros.
Proof. apply vec_eq; simpl; lra. Qed.

Lemma sub_diag a : Vec.sub a a = Vec.zeros.
Proof. apply vec_eq; simpl; lra. Qed.

Lemma norm_nonneg a : 0 <= Vec.norm a.
Proof. apply sqrt_pos. Qed.

(** [np.linalg.norm] vanishes on the zero vector only. *)
Lemma norm_eq_0 a : Vec.norm a = 0 <-> a = Vec.zeros.
Proof.
  unfold Vec.norm. split.
  - intros H. apply sqrt_eq_0 in H; [| nra].
    apply vec_eq; simpl; nra.
  - intros ->. simpl. replace (0 * 0 + 0 * 0 + 0 * 0) with 0 by lra.
    apply sqrt_0.
Qed.

Lemma norm_sub_eq_0 a b : Vec.norm (Vec.sub a b) = 0 <-> a = b.
Proof.
  rewrite norm_eq_0. split.
  - intros H. injection H as Hx Hy Hz. apply vec_eq; lra.
  - intros ->. apply sub_diag.
Qed.

Lemma norm_sub_sym a b : Vec.norm (Vec.sub a b) = Vec.norm (Vec.sub b a).
Proof. unfold Vec.norm. f_equal. simpl. ring. Qed.

Lemma fold_add_shift l a :
  fold_left Vec.add l a = Vec.add a (Vec.sum l).
Proof.
  unfold Vec.sum. revert a.
  induction l as [| x l IH]; intros a; simpl.
  - by rewrite add_zeros_r.
  - rewrite IH, (IH (Vec.add Vec.zeros x)), add_zeros_l.
    by rewrite add_assoc.
Qed.

Lemma sum_cons x l : Vec.sum (x :: l) = Vec.add x (Vec.sum l).
Proof.
  unfold Vec.sum at 1. simpl. by rewrite fold_add_shift, add_zeros_l.
Qed.

Lemma sum_nil : Vec.sum [] = Vec.zeros.
Proof. reflexivity. Qed.

End VecFacts.

(** ** Loops that rewrite the list slot by slot *)

Section SlotLoop.
Context {A : Type}.
Variable g : nat -> A -> A.
Variable bodies : list A.

(** The list when the slots below [k] have been rewritten. *)
Definition rewritten (k : nat) : list A :=
  imap (fun i o => if decide (i < k) then g i o else o) bodies.

Lemma rewritten_0 : rewritten 0 = bodies.
Proof.
  apply list_eq; intros i. unfold rewritten.
  rewrite list_lookup_imap. destruct (bodies !! i); [| done].
  cbv [fmap option_fmap option_map]. case_decide; [lia | done].
Qed.

Lemma rewritten_all : rewritten (length bodies) = imap g bodies.
Proof.
  apply list_eq; intros i. unfold rewritten.
  rewrite !list_lookup_imap.
  destruct (bodies !! i) eqn:E; [| done].
  cbv [fmap option_fmap option_map].
  apply lookup_lt_Some in E. case_decide; [done | lia].
Qed.

Lemma rewritten_lookup_at k o :
  bodies !! k = Some o -> rewritten k !! k = Some o.
Proof.
  intros E. unfold rewritten. rewrite list_lookup_imap, E.
  cbv [fmap option_fmap option_map]. case_decide; [lia | done].
Qed.

Lemma rewritten_S k o :
  bodies !! k = Some o -> <[k := g k o]> (rewritten k) = rewritten (S k).
Proof.
  intros E. apply list_eq; intros i.
  destruct (decide (i = k)) as [-> | Hne].
  - rewrite list_lookup_insert_eq.
    + unfold rewritten. rewrite list_lookup_imap, E.
      cbv [fmap option_fmap option_map]. case_decide; [done | lia].
    + unfold rewritten. rewrite length_imap. by eapply lookup_lt_Some.
  - rewrite list_lookup_insert_ne by done.
    unfold rewritten. rewrite !list_lookup_imap.
    destruct (bodies !! i); [| done].
    cbv [fmap option_fmap option_map]. repeat case_decide; done || lia.
Qed.

Variable step : list A -> nat -> list A.
Hypothesis step_rewrites : forall k o,
  bodies !! k = Some o -> step (rewritten k) k = <[k := g k o]> (rewritten k).

Lemma slot_loop_upto k :
  k <= length bodies -> fold_left step (seq 0 k) bodies = rewritten k.
Proof.
  induction k as [| k IH]; intros Hk.
  - by rewrite rewritten_0.
  - rewrite seq_S, fold_left_app, IH by lia. simpl.
    destruct (lookup_lt_is_Some_2 bodies k) as [o E]; [lia |].
    by rewrite (step_rewrites k o E), (rewritten_S k o E).
Qed.

Lemma slot_loop : fold_left step (seq 0 (length bodies)) bodies = imap g bodies.
Proof. rewrite slot_loop_upto by done. apply rewritten_all. Qed.
End SlotLoop.

(** ** The force evaluation as sums *)

Section ForceFacts.
Local Open Scope R_scope.

Lemma pair_term_newton obj_i obj_j :
  pair_term obj_i obj_j = newton_term (position obj_i) obj_j.
Proof.
  unfold pair_term, newton_term. apply vec_eq; simpl; unfold Rdiv; ring.
Qed.

Lemma fold_accumulate i obj_i (l : list (nat * Body)) a :
  fold_left (accumulate i obj_i) l a
  = Vec.add a (Vec.sum (omap (pull i obj_i) l)).
Proof.
  revert a. induction l as [| jo l IH]; intros a; simpl.
  - by rewrite sum_nil, add_zeros_r.
  - rewrite IH. unfold accumulate.
    destruct (pull i obj_i jo) as [term |]; [| done].
    by rewrite sum_cons, add_assoc.
Qed.

Lemma total_acc_sum bodies i obj_i :
  total_acc bodies i obj_i = Vec.sum (omap (pull i obj_i) (enumerate bodies)).
Proof. unfold total_acc. by rewrite fold_accumulate, add_zeros_l. Qed.

(** A turn of the inner loop reads the two positions and one mass only. *)
Lemma pull_frame i obj_i obj_i' j obj_j obj_j' :
  position obj_i = position obj_i' ->
  position obj_j = position obj_j' ->
  mass obj_j = mass obj_j' ->
  pull i obj_i (j, obj_j) = pull i obj_i' (j, obj_j').
Proof.
  intros Hi Hj Hm. unfold pull, pair_term. simpl.
  by rewrite Hi, Hj, Hm.
Qed.

Lemma total_acc_frame (g : nat -> Body -> Body) bodies k i obj_i :
  (forall n o, position (g n o) = position o) ->
  (forall n o, mass (g n o) = mass o) ->
  total_acc (rewritten g bodies k) i obj_i = total_acc bodies i obj_i.
Proof.
  intros Hp Hm. rewrite !total_acc_sum. f_equal.
  apply list_omap_ext, Forall2_same_length_lookup. split.
  - unfold enumerate, rewritten. by rewrite !length_imap.
  - intros n [n1 b1] [n2 b2]. unfold enumerate, rewritten.
    rewrite !list_lookup_imap.
    destruct (bodies !! n) as [o |]; [| done].
    cbv [fmap option_fmap option_map].
    intros [= <- <-] [= <- <-].
    case_decide; [| done].
    apply pull_frame; by rewrite ?Hp, ?Hm.
Qed.

(** The force evaluation slot by slot: every body gets the [total_acc] of
    its own inner loop, run on the list as it was at the call. *)
Lemma compute_imap bodies :
  compute_gravitational_accelerations bodies
  = imap (fun i o => set_acceleration (total_acc bodies i o) o) bodies.
Proof.
  unfold compute_gravitational_accelerations.
  apply (slot_loop (fun i o => set_acceleration (total_acc bodies i o) o)).
  intros k o E. unfold accelerate.
  rewrite (rewritten_lookup_at _ _ _ _ E).
  by rewrite total_acc_frame.
Qed.

Lemma compute_lookup bodies i :
  compute_gravitational_accelerations bodies !! i
  = (fun o => set_acceleration (total_acc bodies i o) o) <$> bodies !! i.
Proof. by rewrite compute_imap, list_lookup_imap. Qed.

Lemma compute_length bodies :
  length (compute_gravitational_accelerations bodies) = length bodies.
Proof. by rewrite compute_imap, length_imap. Qed.

(** What a turn adds, read off the positions: nothing for slot [i] itself
    and for a body at the position of [obj_i], the Newtonian term for
    every other body. *)
Lemma pull_cases i obj_i (jo : nat * Body) :
  pull i obj_i jo
  = if decide ((jo.1 ≠ i) ∧ (position jo.2 ≠ position obj_i))
    then Some (newton_term (position obj_i) jo.2) else None.
Proof.
  unfold pull. destruct (Nat.eqb_spec i jo.1) as [-> | Hij].
  - case_decide as H; [| done]. by destruct H as [H _].
  - destruct (Req_EM_T _ 0) as [H0 | H0].
    + apply norm_sub_eq_0 in H0. case_decide as H; [| done].
      by destruct H as (_ & H).
    + rewrite pair_term_newton. case_decide as H; [done |].
      exfalso. apply H. split.
      * congruence.
      * intros Heq. apply H0. by apply norm_sub_eq_0.
Qed.

Lemma omap_pull i obj_i (l : list (nat * Body)) :
  omap (pull i obj_i) l
  = newton_term (position obj_i)
      <$> (filter (fun jo : nat * Body =>
                     (jo.1 ≠ i) ∧ (position jo.2 ≠ position obj_i)) l).*2.
Proof.
  induction l as [| jo l IH]; [done |].
  simpl. rewrite pull_cases, filter_cons.
  repeat case_decide; try tauto; simpl; try f_equal; apply IH.
Qed.

Lemma total_acc_gravity bodies i obj_i :
  total_acc bodies i obj_i
  = gravity_sum (position obj_i) (attractors bodies i (position obj_i)).
Proof.
  rewrite total_acc_sum, omap_pull. reflexivity.
Qed.
End ForceFacts.

(** ** Claims on compute_gravitational_accelerations *)

Lemma enumerate_elem {A : Type} (l : list A) (k : nat) (x : A) :
  (k, x) ∈ enumerate l -> l !! k = Some x.
Proof.
  unfold enumerate. intros H.
  apply elem_of_lookup_imap in H as (i & y & [= -> ->] & E). done.
Qed.

Lemma filter_ext_elem {A : Type} (P Q : A -> Prop)
    `{!forall x, Decision (P x), !forall x, Decision (Q x)} (l : list A) :
  (forall x, x ∈ l -> P x <-> Q x) -> filter P l = filter Q l.
Proof.
  induction l as [| a l IH]; intros Hl; [done |].
  rewrite !filter_cons.
  assert (P a <-> Q a) as Ha by (apply Hl; left).
  rewrite IH by (intros x Hx; apply Hl; by right).
  repeat case_decide; tauto.
Qed.

(** A body at the position of slot [i] is no attractor of slot [i], whether
    its slot is left out or not. *)
Lemma attractors_skip bodies i pos_i j obj_j :
  bodies !! j = Some obj_j -> position obj_j = pos_i ->
  attractors_without j bodies i pos_i = attractors bodies i pos_i.
Proof.
  intros Ej Hp. unfold attractors, attractors_without. f_equal.
  apply filter_ext_elem. intros [k b] Hk. simpl.
  apply enumerate_elem in Hk. split.
  - intros (H1 & H2 & H3). done.
  - intros (H1 & H3). repeat split; try done.
    intros ->. rewrite Ej in Hk. injection Hk as <-. done.
Qed.

(** C1. After compute_gravitational_accelerations, the acceleration of the
    body in slot [i] is the sum, over the bodies of the other slots whose
    position differs from its own, of
    [G * mass_j * (pos_j - pos_i) / |pos_j - pos_i|^3], where
    [G = 6.67430e-20]; in a list of one body it is the zero vector. *)
Theorem accelerations_are_newtonian_sums (bodies : list Body) (i : nat)
    (obj_i : Body) :
  bodies !! i = Some obj_i ->
  acceleration <$> compute_gravitational_accelerations bodies !! i
    = Some (gravity_sum (position obj_i)
              (attractors bodies i (position obj_i)))
  /\ (length bodies = 1 ->
      acceleration <$> compute_gravitational_accelerations bodies !! i
        = Some Vec.zeros)
  /\ G = (667430 / 10 ^ 25)%R.
Proof.
  intros E. rewrite compute_lookup, E. simpl.
  rewrite total_acc_gravity. split; [done |]. split.
  - intros Hlen. destruct bodies as [| b [| ? ?]]; try done.
    destruct i; [| done]. reflexivity.
  - unfold G. lra.
Qed.

(** C10. compute_gravitational_accelerations changes acceleration fields
    only: the list keeps its length and order, and every body keeps its
    name, mass, position and velocity. *)
Theorem compute_changes_accelerations_only (bodies : list Body) :
  length (compute_gravitational_accelerations bodies) = length bodies
  /\ name <$> compute_gravitational_accelerations bodies = name <$> bodies
  /\ mass <$> compute_gravitational_accelerations bodies = mass <$> bodies
  /\ position <$> compute_gravitational_accelerations bodies
     = position <$> bodies
  /\ velocity <$> compute_gravitational_accelerations bodies
     = velocity <$> bodies.
Proof.
  split; [apply compute_length |].
  repeat split; apply list_eq; intros i;
    rewrite !list_lookup_fmap, compute_lookup;
    by destruct (bodies !! i).
Qed.

(** C5. compute_gravitational_accelerations is a total function, and for
    two bodies in different slots at one position the turn of the inner
    loop ends in [continue]: nothing is added to [total_acc], and the
    acceleration of either is the sum of the Newtonian terms of the
    remaining bodies at other positions.  The statement is about pairs at
    one and the same position, which the test [r_mag == 0] catches in
    floating point as it does here; it says nothing of the divisor
    [r_mag**3] of a pair at a tiny but non-zero separation, which can
    underflow to 0.0 in the program. *)
Theorem zero_separation_is_skipped (bodies : list Body) (i j : nat)
    (obj_i obj_j : Body) :
  bodies !! i = Some obj_i -> bodies !! j = Some obj_j -> i ≠ j ->
  position obj_i = position obj_j ->
  pull i obj_i (j, obj_j) = None
  /\ (forall total_acc, accumulate i obj_i total_acc (j, obj_j) = total_acc)
  /\ acceleration <$> compute_gravitational_accelerations bodies !! i
     = Some (gravity_sum (position obj_i)
               (attractors_without j bodies i (position obj_i))).
Proof.
  intros Ei Ej Hij Hpos.
  assert (pull i obj_i (j, obj_j) = None) as Hskip.
  { unfold pull. simpl. destruct (i =? j)%nat; [done |].
    destruct (Req_EM_T _ 0) as [_ | Hne]; [done |].
    exfalso. apply Hne. by apply norm_sub_eq_0. }
  split; [done |]. split.
  { intros acc. unfold accumulate. by rewrite Hskip. }
  rewrite compute_lookup, Ei. simpl. rewrite total_acc_gravity.
  by rewrite (attractors_skip _ _ _ j obj_j).
Qed.

(** ** The integrator phase by phase *)

Section VerletFacts.
Variable dt : R.
Variable bodies : list Body.

Lemma drifted_eq (o : Body) :
  Vec.add (position o)
    (Vec.add (Vec.scale dt (velocity o))
       (Vec.scale (dt ^ 2)%R (Vec.scale 0.5%R (acceleration o))))
  = drifted dt o.
Proof. apply vec_eq; simpl; lra. Qed.

Lemma kicked_eq (v a_old a_new : Vec3) :
  Vec.add v (Vec.scale dt (Vec.scale 0.5%R (Vec.add a_old a_new)))
  = kicked dt v a_old a_new.
Proof. apply vec_eq; simpl; lra. Qed.

Lemma move_loop :
  fold_left (move dt (old_accelerations bodies)) (seq 0 (length bodies)) bodies
  = all_moved dt bodies.
Proof.
  rewrite (slot_loop (fun _ b => set_position (drifted dt b) b)).
  - apply list_eq; intros i. unfold all_moved.
    by rewrite list_lookup_imap, list_lookup_fmap.
  - intros k o E. unfold move, old_accelerations.
    rewrite (rewritten_lookup_at _ _ _ _ E), list_lookup_fmap, E.
    cbv [fmap option_fmap option_map]. by rewrite drifted_eq.
Qed.

Lemma kick_loop (pulled : list Body) :
  length pulled = length bodies ->
  fold_left (kick dt (old_accelerations bodies)) (seq 0 (length pulled)) pulled
  = zip_with (fun old new =>
                set_velocity
                  (kicked dt (velocity new) (acceleration old) (acceleration new))
                  new)
             bodies pulled.
Proof.
  intros Hlen.
  rewrite (slot_loop (fun i new =>
             match bodies !! i with
             | Some old =>
                 set_velocity
                   (kicked dt (velocity new) (acceleration old) (acceleration new))
                   new
             | None => new
             end)).
  - apply list_eq; intros i.
    rewrite list_lookup_imap, lookup_zip_with.
    destruct (bodies !! i) as [old |] eqn:E; simpl.
    + by destruct (pulled !! i).
    + apply lookup_ge_None in E.
      rewrite (proj2 (lookup_ge_None pulled i)); [done | lia].
  - intros k new E. unfold kick, old_accelerations.
    rewrite (rewritten_lookup_at _ _ _ _ E), list_lookup_fmap.
    destruct (bodies !! k) as [old |] eqn:Eo;
      cbv [fmap option_fmap option_map].
    + by rewrite kicked_eq.
    + apply lookup_ge_None in Eo. apply lookup_lt_Some in E. lia.
Qed.

Lemma verlet_phases :
  verlet_integration bodies dt
  = zip_with (fun old new =>
                set_velocity
                  (kicked dt (velocity new) (acceleration old) (acceleration new))
                  new)
             bodies
             (compute_gravitational_accelerations (all_moved dt bodies)).
Proof.
  unfold verlet_integration. cbv zeta. rewrite move_loop.
  apply kick_loop. unfold all_moved.
  by rewrite compute_length, length_fmap.
Qed.

Lemma verlet_lookup i :
  verlet_integration bodies dt !! i
  = (fun b =>
       let a_new :=
         total_acc (all_moved dt bodies) i (set_position (drifted dt b) b) in
       mkBody (name b) (mass b) (drifted dt b)
         (kicked dt (velocity b) (acceleration b) a_new) a_new)
    <$> bodies !! i.
Proof.
  rewrite verlet_phases, lookup_zip_with, compute_lookup. unfold all_moved.
  rewrite list_lookup_fmap. by destruct (bodies !! i).
Qed.
End VerletFacts.

(** C2. verlet_integration works in phases.  The accelerations stored at
    the call are the [a_old] of every later phase; the first loop leaves
    every position at [pos + vel*dt + 0.5*a_old*dt^2] and nothing else
    changed; the force evaluation then runs once, on that list; the last
    loop leaves every velocity at [vel + 0.5*(a_old + a_new)*dt], with
    [a_new] the acceleration that evaluation gave the same slot. *)
Theorem verlet_updates_in_phases (bodies : list Body) (dt : R) :
  let moved := all_moved dt bodies in
  let pulled := compute_gravitational_accelerations moved in
  fold_left (move dt (old_accelerations bodies)) (seq 0 (length bodies)) bodies
    = moved
  /\ verlet_integration bodies dt
     = fold_left (kick dt (old_accelerations bodies))
         (seq 0 (length pulled)) pulled
  /\ position <$> verlet_integration bodies dt = drifted dt <$> bodies
  /\ acceleration <$> verlet_integration bodies dt = acceleration <$> pulled
  /\ velocity <$> verlet_integration bodies dt
     = zip_with (fun b a_new => kicked dt (velocity b) (acceleration b) a_new)
         bodies (acceleration <$> pulled)
  /\ name <$> verlet_integration bodies dt = name <$> bodies
  /\ mass <$> verlet_integration bodies dt = mass <$> bodies.
Proof.
  intros moved pulled. split; [apply move_loop |]. split.
  { unfold verlet_integration. cbv zeta. by rewrite move_loop. }
  repeat split; apply list_eq; intros i;
    rewrite ?lookup_zip_with, !list_lookup_fmap, verlet_lookup;
    subst pulled moved; rewrite ?compute_lookup;
    unfold all_moved; rewrite ?list_lookup_fmap;
    by destruct (bodies !! i).
Qed.

(** ** The collision scan *)

Ltac scan_cases :=
  repeat match goal with
  | Heq : decide _ = _ |- _ => rewrite Heq; clear Heq
  | Heq : _ !! _ = _ |- _ => rewrite Heq; clear Heq
  | Heq : Rlt_dec _ _ = _ |- _ => rewrite Heq; clear Heq
  end.

Section ScanFacts.
Variable collision_distance : R.

(** The inner loop, one turn unrolled. *)
Lemma inner_scan_turn i j bodies :
  inner_scan collision_distance i j bodies
  = if decide (j < length bodies) then
      match bodies !! i, bodies !! j with
      | Some obj_i, Some obj_j =>
          if Rlt_dec (dist obj_i obj_j) collision_distance
          then inner_scan collision_distance i j
                 (delete j (<[i := merged obj_i obj_j]> bodies))
          else inner_scan collision_distance i (S j) bodies
      | _, _ => bodies
      end
    else bodies.
Proof.
  funelim (inner_scan collision_distance i j bodies); scan_cases; try done.
  by destruct (bodies !! i).
Qed.

(** The outer loop, one turn unrolled. *)
Lemma outer_scan_turn i bodies :
  outer_scan collision_distance i bodies
  = if decide (i < length bodies)
    then outer_scan collision_distance (S i)
           (inner_scan collision_distance i (S i) bodies)
    else bodies.
Proof.
  funelim (outer_scan collision_distance i bodies); scan_cases; done.
Qed.

Lemma inner_scan_done i j bodies :
  length bodies <= j -> inner_scan collision_distance i j bodies = bodies.
Proof.
  intros H. rewrite inner_scan_turn. case_decide; [lia | done].
Qed.

Lemma outer_scan_done i bodies :
  length bodies <= i -> outer_scan collision_distance i bodies = bodies.
Proof.
  intros H. rewrite outer_scan_turn. case_decide; [lia | done].
Qed.

Lemma merged_mass_pos obj_i obj_j :
  (0 < mass obj_i)%R -> (0 < mass obj_j)%R -> (0 < mass (merged obj_i obj_j))%R.
Proof. simpl. lra. Qed.

Lemma inner_scan_mass_pos i j bodies :
  Forall (fun b => (0 < mass b)%R) bodies ->
  Forall (fun b => (0 < mass b)%R) (inner_scan collision_distance i j bodies).
Proof.
  funelim (inner_scan collision_distance i j bodies); try done.
  intros Hall. match goal with IH : _ -> Forall _ _ |- _ => apply IH end.
  apply Forall_delete, Forall_insert; [done |].
  rewrite Forall_lookup in Hall.
  apply merged_mass_pos; eapply Hall; eauto.
Qed.

Lemma outer_scan_mass_pos i bodies :
  Forall (fun b => (0 < mass b)%R) bodies ->
  Forall (fun b => (0 < mass b)%R) (outer_scan collision_distance i bodies).
Proof.
  funelim (outer_scan collision_distance i bodies); [| done].
  intros Hall. match goal with IH : _ -> Forall _ _ |- _ => apply IH end.
  by apply inner_scan_mass_pos.
Qed.
End ScanFacts.

Lemma compute_keeps_mass bodies :
  mass <$> compute_gravitational_accelerations bodies = mass <$> bodies.
Proof.
  apply list_eq; intros i. rewrite !list_lookup_fmap, compute_lookup.
  by destruct (bodies !! i).
Qed.

Lemma verlet_keeps_mass bodies dt :
  mass <$> verlet_integration bodies dt = mass <$> bodies.
Proof.
  apply list_eq; intros i. rewrite !list_lookup_fmap, verlet_lookup.
  by destruct (bodies !! i).
Qed.

(** C9. Each of compute_gravitational_accelerations, verlet_integration
    and check_and_merge_collisions keeps every mass strictly positive when
    every mass is strictly positive at the call. *)
Theorem masses_stay_positive (bodies : list Body) :
  Forall (fun b => (0 < mass b)%R) bodies ->
  Forall (fun b => (0 < mass b)%R) (compute_gravitational_accelerations bodies)
  /\ (forall dt,
        Forall (fun b => (0 < mass b)%R) (verlet_integration bodies dt))
  /\ (forall collision_distance,
        Forall (fun b => (0 < mass b)%R)
          (check_and_merge_collisions bodies collision_distance)).
Proof.
  intros Hall.
  assert (forall l : list Body,
            mass <$> l = mass <$> bodies -> Forall (fun b => (0 < mass b)%R) l)
    as Hkeep.
  { intros l Hl.
    apply (Forall_fmap mass (fun m => (0 < m)%R)). rewrite Hl.
    by apply Forall_fmap. }
  split; [| split].
  - apply Hkeep, compute_keeps_mass.
  - intros dt. apply Hkeep, verlet_keeps_mass.
  - intros cd. by apply outer_scan_mass_pos.
Qed.

(** ** Distances against a threshold *)

Section NormBounds.
Local Open Scope R_scope.

Lemma norm_sqr a :
  Vec.norm a * Vec.norm a = vx a * vx a + vy a * vy a + vz a * vz a.
Proof. unfold Vec.norm. apply sqrt_sqrt. nra. Qed.

Lemma norm_lt a c :
  0 < c -> vx a * vx a + vy a * vy a + vz a * vz a < c * c -> Vec.norm a < c.
Proof.
  intros Hc H. pose proof (norm_sqr a). pose proof (norm_nonneg a). nra.
Qed.

Lemma norm_lt_inv a c :
  Vec.norm a < c -> vx a * vx a + vy a * vy a + vz a * vz a < c * c.
Proof.
  intros H. pose proof (norm_sqr a). pose proof (norm_nonneg a). nra.
Qed.

Lemma norm_ge a c :
  0 <= c -> c * c <= vx a * vx a + vy a * vy a + vz a * vz a -> c <= Vec.norm a.
Proof.
  intros Hc H. pose proof (norm_sqr a). pose proof (norm_nonneg a). nra.
Qed.


End NormBounds.

(** ** Claims on check_and_merge_collisions *)

Section MergeClaims.
Variable collision_distance : R.

Lemma scan_pair_merged obj_i obj_j :
  (dist obj_i obj_j < collision_distance)%R ->
  check_and_merge_collisions [obj_i; obj_j] collision_distance
  = [merged obj_i obj_j].
Proof.
  intros Hlt. unfold check_and_merge_collisions.
  rewrite outer_scan_turn. simpl.
  rewrite inner_scan_turn. simpl.
  destruct (Rlt_dec _ _) as [_ | Hge]; [| done].
  rewrite inner_scan_done by (simpl; lia).
  by rewrite outer_scan_done by (simpl; lia).
Qed.

Lemma scan_pair_kept obj_i obj_j :
  (collision_distance <= dist obj_i obj_j)%R ->
  check_and_merge_collisions [obj_i; obj_j] collision_distance
  = [obj_i; obj_j].
Proof.
  intros Hge. unfold check_and_merge_collisions.
  rewrite outer_scan_turn. simpl.
  rewrite inner_scan_turn. simpl.
  destruct (Rlt_dec _ _) as [Hlt | _]; [lra |].
  rewrite inner_scan_done by (simpl; lia).
  rewrite outer_scan_turn. simpl.
  rewrite inner_scan_done by (simpl; lia).
  by rewrite outer_scan_done by (simpl; lia).
Qed.

(** After a merge the inner loop goes on at the same [j], on the list with
    slot [i] rewritten and slot [j] popped. *)
Lemma inner_scan_merge i j bodies obj_i obj_j :
  bodies !! i = Some obj_i -> bodies !! j = Some obj_j ->
  (dist obj_i obj_j < collision_distance)%R ->
  inner_scan collision_distance i j bodies
  = inner_scan collision_distance i j
      (delete j (<[i := merged obj_i obj_j]> bodies)).
Proof.
  intros Ei Ej Hlt. rewrite inner_scan_turn at 1.
  rewrite Ei, Ej. apply lookup_lt_Some in Ej.
  case_decide; [| lia]. by destruct (Rlt_dec _ _).
Qed.

End MergeClaims.

(** C3. With exactly two bodies in the list: when their distance is below
    collision_distance, check_and_merge_collisions leaves one body, whose
    mass is [mass_i + mass_j], whose position and velocity are the
    mass-weighted means and whose name is [name_i + "+" + name_j]; when
    the distance equals or exceeds collision_distance, the list is left
    as it was. *)
Theorem two_bodies_merge_below_threshold (obj_i obj_j : Body)
    (collision_distance : R) :
  ((dist obj_i obj_j < collision_distance)%R ->
   exists survivor,
     check_and_merge_collisions [obj_i; obj_j] collision_distance = [survivor]
     /\ mass survivor = (mass obj_i + mass obj_j)%R
     /\ position survivor
        = Vec.div (Vec.add (Vec.scale (mass obj_i) (position obj_i))
                           (Vec.scale (mass obj_j) (position obj_j)))
                  (mass obj_i + mass obj_j)%R
     /\ velocity survivor
        = Vec.div (Vec.add (Vec.scale (mass obj_i) (velocity obj_i))
                           (Vec.scale (mass obj_j) (velocity obj_j)))
                  (mass obj_i + mass obj_j)%R
     /\ name survivor = name obj_i +:+ "+" +:+ name obj_j)
  /\ ((collision_distance <= dist obj_i obj_j)%R ->
      check_and_merge_collisions [obj_i; obj_j] collision_distance
      = [obj_i; obj_j]).
Proof.
  split.
  - intros Hlt. exists (merged obj_i obj_j).
    by rewrite scan_pair_merged.
  - apply scan_pair_kept.
Qed.


(** ** Momentum *)

Section Momentum.
Local Open Scope R_scope.

Lemma sum_add_map {A : Type} (g h : A -> Vec3) (l : list A) :
  Vec.sum ((fun a => Vec.add (g a) (h a)) <$> l)
  = Vec.add (Vec.sum (g <$> l)) (Vec.sum (h <$> l)).
Proof.
  induction l as [| a l IH].
  - by rewrite !fmap_nil, sum_nil, add_zeros_l.
  - rewrite !fmap_cons, !sum_cons, IH. apply vec_eq; simpl; lra.
Qed.

Lemma sum_scale_map {A : Type} (k : R) (g : A -> Vec3) (l : list A) :
  Vec.sum ((fun a => Vec.scale k (g a)) <$> l) = Vec.scale k (Vec.sum (g <$> l)).
Proof.
  induction l as [| a l IH].
  - by rewrite !fmap_nil, sum_nil, scale_zeros.
  - by rewrite !fmap_cons, !sum_cons, IH, scale_add.
Qed.

Lemma sum_zeros_map {A : Type} (g : A -> Vec3) (l : list A) :
  (forall a, g a = Vec.zeros) -> Vec.sum (g <$> l) = Vec.zeros.
Proof.
  intros Hg. induction l as [| a l IH]; [done |].
  by rewrite fmap_cons, sum_cons, IH, Hg, add_zeros_l.
Qed.

(** Pairwise terms that cancel, summed over all ordered pairs of a list. *)
Lemma pairwise_cancel {A : Type} (F : A -> A -> Vec3) (l : list A) :
  (forall a b, Vec.add (F a b) (F b a) = Vec.zeros) ->
  Vec.sum ((fun a => Vec.sum (F a <$> l)) <$> l) = Vec.zeros.
Proof.
  intros Hanti.
  assert (forall a, F a a = Vec.zeros) as Hdiag.
  { intros a. specialize (Hanti a a). injection Hanti as Hx Hy Hz.
    apply vec_eq; simpl; lra. }
  induction l as [| x l IH]; [done |].
  rewrite fmap_cons, sum_cons, fmap_cons, sum_cons, Hdiag, add_zeros_l.
  rewrite (list_fmap_ext (fun a => Vec.sum (F a <$> x :: l))
             (fun a => Vec.add (F a x) (Vec.sum (F a <$> l))) l)
    by (intros; cbv beta; by rewrite fmap_cons, sum_cons).
  rewrite (sum_add_map (fun a => F a x)), IH, add_zeros_r.
  rewrite <- (sum_add_map (F x) (fun a => F a x)).
  by apply sum_zeros_map.
Qed.

Lemma pull_tug i obj_i k b :
  (k = i -> b = obj_i) ->
  match pull i obj_i (k, b) with Some term => term | None => Vec.zeros end
  = tug obj_i b.
Proof.
  intros Hk. unfold pull, tug. cbn [fst snd].
  destruct (Nat.eqb_spec i k) as [<- | Hik].
  - rewrite Hk by done.
    rewrite sub_diag, (proj2 (norm_eq_0 _)) by done.
    by destruct (Req_EM_T 0 0).
  - by destruct (Req_EM_T _ 0).
Qed.

(** The acceleration a body gets, without the slot numbers: slot [i] itself
    is at zero separation from [obj_i] and adds nothing either way. *)
Lemma total_acc_tug bodies i obj_i :
  bodies !! i = Some obj_i ->
  total_acc bodies i obj_i = Vec.sum (tug obj_i <$> bodies).
Proof.
  intros Ei. unfold total_acc. rewrite fold_accumulate, add_zeros_l.
  assert (forall (l : list (nat * Body)),
            (forall k b, (k, b) ∈ l -> k = i -> b = obj_i) ->
            Vec.sum (omap (pull i obj_i) l) = Vec.sum (tug obj_i <$> l.*2))
    as Hgen.
  { induction l as [| [k b] l IH]; intros Hl; [done |].
    rewrite !fmap_cons, sum_cons. cbn [omap list_omap].
    change (list_omap _ _ ?f ?l) with (omap f l).
    assert (Vec.sum (omap (pull i obj_i) l) = Vec.sum (tug obj_i <$> l.*2))
      as IH' by (apply IH; intros; eapply Hl; [by right | done]).
    cbn [snd].
    rewrite <- (pull_tug i obj_i k b) by (intros; eapply Hl; [by left | done]).
    destruct (pull i obj_i (k, b)).
    - by rewrite sum_cons, IH'.
    - by rewrite IH', add_zeros_l. }
  rewrite Hgen.
  - f_equal. f_equal. unfold enumerate. apply list_eq; intros k.
    rewrite list_lookup_fmap, list_lookup_imap.
    by destruct (bodies !! k).
  - intros k b Hk ->. apply enumerate_elem in Hk. congruence.
Qed.

Lemma compute_map bodies :
  compute_gravitational_accelerations bodies
  = (fun o => set_acceleration (Vec.sum (tug o <$> bodies)) o) <$> bodies.
Proof.
  apply list_eq; intros i. rewrite compute_lookup, list_lookup_fmap.
  destruct (bodies !! i) as [o |] eqn:E; [| done].
  cbv [fmap option_fmap option_map]. by rewrite (total_acc_tug _ _ _ E).
Qed.

(** Newton's third law for the terms of the inner loop. *)
Lemma tug_cancel a b :
  Vec.add (Vec.scale (mass a) (tug a b)) (Vec.scale (mass b) (tug b a))
  = Vec.zeros.
Proof.
  unfold tug, pair_term.
  rewrite (norm_sub_sym (position a) (position b)).
  destruct (Req_EM_T _ 0).
  - by rewrite !scale_zeros, add_zeros_l.
  - apply vec_eq; simpl; unfold Rdiv; ring.
Qed.

Lemma net_force_compute bodies :
  net_force (compute_gravitational_accelerations bodies) = Vec.zeros.
Proof.
  unfold net_force. rewrite compute_map, <- list_fmap_compose.
  rewrite (list_fmap_ext _
             (fun a => Vec.sum ((fun b => Vec.scale (mass a) (tug a b))
                                  <$> bodies)) bodies)
    by (intros; cbn; by rewrite sum_scale_map).
  apply pairwise_cancel, tug_cancel.
Qed.

Lemma verlet_map bodies dt :
  verlet_integration bodies dt
  = (fun b =>
       mkBody (name b) (mass b) (drifted dt b)
         (kicked dt (velocity b) (acceleration b) (new_acceleration dt bodies b))
         (new_acceleration dt bodies b))
    <$> bodies.
Proof.
  apply list_eq; intros i. rewrite verlet_lookup, list_lookup_fmap.
  destruct (bodies !! i) as [b |] eqn:E; [| done].
  cbv [fmap option_fmap option_map]. cbv zeta.
  rewrite (total_acc_tug (all_moved dt bodies) i); [done |].
  unfold all_moved. by rewrite list_lookup_fmap, E.
Qed.

Lemma net_force_verlet bodies dt :
  net_force (verlet_integration bodies dt) = Vec.zeros.
Proof.
  rewrite <- (net_force_compute (all_moved dt bodies)).
  unfold net_force. rewrite verlet_map, compute_map. unfold all_moved.
  rewrite <- !list_fmap_compose. reflexivity.
Qed.

(** One step adds [0.5 * dt] times the net force of the stored
    accelerations to the momentum. *)
Lemma momentum_verlet bodies dt :
  momentum (verlet_integration bodies dt)
  = Vec.add (momentum bodies) (Vec.scale (0.5 * dt) (net_force bodies)).
Proof.
  pose proof (net_force_verlet bodies dt) as Hnew.
  unfold momentum, net_force in *. rewrite verlet_map in *.
  rewrite <- !list_fmap_compose in *.
  rewrite (list_fmap_ext _
    (fun b => Vec.add
       (Vec.add (Vec.scale (mass b) (velocity b))
          (Vec.scale (0.5 * dt) (Vec.scale (mass b) (acceleration b))))
       (Vec.scale (0.5 * dt)
          (Vec.scale (mass b) (new_acceleration dt bodies b)))) bodies).
  - rewrite !sum_add_map, !sum_scale_map.
    change (fun b => Vec.scale (mass b) (new_acceleration dt bodies b))
      with ((fun b => Vec.scale (mass b) (acceleration b))
            ∘ (fun b => mkBody (name b) (mass b) (drifted dt b)
                 (kicked dt (velocity b) (acceleration b)
                    (new_acceleration dt bodies b))
                 (new_acceleration dt bodies b))).
    by rewrite Hnew, !scale_zeros, add_zeros_r.
  - intros k b _. apply vec_eq; simpl; lra.
Qed.

Lemma primed_net_force bodies : primed bodies -> net_force bodies = Vec.zeros.
Proof. intros <-. apply net_force_compute. Qed.

Lemma net_force_steps n dt bodies :
  net_force bodies = Vec.zeros ->
  net_force (verlet_steps n dt bodies) = Vec.zeros.
Proof. destruct n; [done |]. intros _. apply net_force_verlet. Qed.
End Momentum.

(** ** Claims on momentum *)

(** The force evaluation primes any list: a second call changes nothing. *)
Lemma compute_primes bodies :
  primed (compute_gravitational_accelerations bodies).
Proof.
  unfold primed. rewrite !compute_map, <- list_fmap_compose.
  apply list_fmap_ext. intros k o _. cbn.
  unfold set_acceleration at 1. cbn. f_equal.
  rewrite <- list_fmap_compose. f_equal.
Qed.

(** C6, as the code has it.  For a list whose stored accelerations are the
    ones compute_gravitational_accelerations gives for its positions (the
    driver's priming call), the terms of any two bodies cancel when
    weighted by mass, and the total momentum is the same after any number
    of verlet_integration calls with no merge between, in exact
    arithmetic. *)
Theorem momentum_is_conserved (bodies : list Body) (dt : R) (n : nat) :
  primed bodies ->
  (forall a b,
     Vec.add (Vec.scale (mass a) (tug a b)) (Vec.scale (mass b) (tug b a))
     = Vec.zeros)
  /\ momentum (verlet_steps n dt bodies) = momentum bodies.
Proof.
  intros Hprimed. split; [apply tug_cancel |].
  apply primed_net_force in Hprimed.
  induction n as [| n IH]; [done |].
  change (verlet_steps (S n) dt bodies)
    with (verlet_integration (verlet_steps n dt bodies) dt).
  rewrite momentum_verlet, (net_force_steps n dt bodies Hprimed), IH.
  by rewrite scale_zeros, add_zeros_r.
Qed.

Lemma momentum_is_conserved_witness :
  primed (compute_gravitational_accelerations [earth; moon])
  /\ momentum
       (verlet_steps 3 dt (compute_gravitational_accelerations [earth; moon]))
     = momentum (compute_gravitational_accelerations [earth; moon]).
Proof.
  split; [apply compute_primes |].
  apply (momentum_is_conserved
           (compute_gravitational_accelerations [earth; moon]) dt 3).
  apply compute_primes.
Defined.

(** C6 as stated fails on a list that was not primed: one call moves the
    momentum of [pushed] from zero to (1, 0, 0). *)
Lemma momentum_changes_when_not_primed :
  momentum [pushed] = Vec.zeros
  /\ momentum (verlet_steps 1 2 [pushed]) = mkVec3 1 0 0.
Proof.
  split.
  - apply vec_eq; simpl; lra.
  - change (verlet_steps 1 2 [pushed]) with (verlet_integration [pushed] 2).
    rewrite momentum_verlet. apply vec_eq; simpl; lra.
Qed.

(** ** Snapshots *)

Section SnapshotFacts.

Lemma take_snapshot_snoc bodies obj :
  take_snapshot (bodies ++ [obj])
  = <[name obj := coordinates obj]> (take_snapshot bodies).
Proof. unfold take_snapshot. by rewrite fold_left_app. Qed.

Lemma snapshot_lookup bodies nm :
  take_snapshot bodies !! nm = coordinates <$> last_named nm bodies.
Proof.
  unfold last_named.
  induction bodies as [| obj bodies IH] using rev_ind; [done |].
  rewrite take_snapshot_snoc, filter_app, filter_cons, filter_nil.
  destruct (decide (name obj = nm)) as [<- | Hne].
  - by rewrite lookup_insert_eq, last_snoc.
  - by rewrite lookup_insert_ne, app_nil_r.
Qed.

Lemma snapshot_dom bodies :
  dom (take_snapshot bodies) = (list_to_set (name <$> bodies) : gset string).
Proof.
  induction bodies as [| obj bodies IH] using rev_ind; [done |].
  rewrite take_snapshot_snoc, dom_insert_L, IH, fmap_app.
  rewrite list_to_set_app_L. simpl. set_solver.
Qed.

Lemma size_names_le (names : list string) :
  size (list_to_set names : gset string) <= length names.
Proof.
  induction names as [| nm names IH]; [done |].
  rewrite list_to_set_cons, size_union_alt, size_singleton. simpl.
  pose proof (subseteq_size (list_to_set names ∖ {[nm]})
                (list_to_set names : gset string)) as Hsub.
  specialize (Hsub ltac:(set_solver)). lia.
Qed.

Lemma size_names_NoDup (names : list string) :
  size (list_to_set names : gset string) = length names <-> NoDup names.
Proof.
  split; [| apply size_list_to_set].
  induction names as [| nm names IH]; [constructor |].
  rewrite list_to_set_cons. simpl. intros Hsize.
  pose proof (size_names_le names) as Hle.
  destruct (decide (nm ∈ names)) as [Hin | Hnin].
  - replace ({[nm]} ∪ list_to_set names : gset string)
      with (list_to_set names : gset string) in Hsize by set_solver.
    lia.
  - rewrite size_union, size_singleton in Hsize by set_solver.
    constructor; [done |]. apply IH. lia.
Qed.

Lemma size_names_dups (names : list string) :
  size (list_to_set names : gset string) = length (remove_dups names).
Proof.
  rewrite <- (size_list_to_set (C := gset string) (remove_dups names))
    by apply NoDup_remove_dups.
  f_equal. apply set_eq. intros nm.
  by rewrite !elem_of_list_to_set, elem_of_remove_dups.
Qed.

Lemma snapshot_size bodies :
  size (take_snapshot bodies)
  = size (list_to_set (name <$> bodies) : gset string).
Proof. by rewrite <- snapshot_dom, size_dom. Qed.

Lemma simulate_S bodies steps :
  simulate bodies (S steps) = turn (simulate bodies steps) steps.
Proof. unfold simulate. by rewrite seq_S, fold_left_app. Qed.
End SnapshotFacts.

(** Every snapshot in [Data] was taken from the list as it stood at the
    end of a turn whose number is a multiple of 10. *)
Lemma emitted_snapshots bodies steps snap :
  snap ∈ Data (simulate bodies steps) ->
  exists k, 10 * k < steps
            /\ snap = take_snapshot (store (simulate bodies (S (10 * k)))).
Proof.
  induction steps as [| steps IH]; [by intros ?%elem_of_nil |].
  rewrite simulate_S. unfold turn at 1.
  destruct (Nat.eqb_spec (steps mod 10) 0) as [Hmod | Hmod]; cbn [Data store].
  - intros [Hin | Hin%list_elem_of_singleton]%elem_of_app.
    + destruct (IH Hin) as (k & Hk & ->). exists k. split; [lia | done].
    + exists (steps / 10).
      assert (10 * (steps / 10) = steps) as Heq.
      { pose proof (Nat.div_mod_eq steps 10). lia. }
      rewrite Heq. split; [lia |].
      rewrite Hin, simulate_S. unfold turn.
      by destruct (steps mod 10 =? 0).
  - intros Hin. destruct (IH Hin) as (k & Hk & ->).
    exists k. split; [lia | done].
Qed.

(** C7, as the code has it.  A snapshot emitted by the run is taken from
    the list as it stands after a turn.  Its keys are the names in that
    list: a name maps to the three coordinates of the last body carrying
    it, so there is one entry per distinct name, never more entries than
    bodies, and as many entries as bodies exactly when no two bodies share
    a name. *)
Theorem snapshot_has_one_entry_per_name (bodies : list Body) (steps : nat)
    (snap : gmap string (list R)) :
  snap ∈ Data (simulate bodies steps) ->
  exists held,
    snap = take_snapshot held
    /\ (exists k, 10 * k < steps
                  /\ held = store (simulate bodies (S (10 * k))))
    /\ (forall nm, snap !! nm = coordinates <$> last_named nm held)
    /\ (forall nm xyz, snap !! nm = Some xyz -> length xyz = 3)
    /\ size snap = length (remove_dups (name <$> held))
    /\ size snap <= length held
    /\ (size snap = length held <-> NoDup (name <$> held)).
Proof.
  intros Hin. apply emitted_snapshots in Hin as (k & Hk & ->).
  eexists. split; [done |]. split; [by exists k |].
  split; [apply snapshot_lookup |]. split.
  { intros nm xyz. rewrite snapshot_lookup.
    destruct (last_named nm _); [| done]. by intros [= <-]. }
  rewrite snapshot_size, <- (length_fmap name).
  split; [apply size_names_dups |].
  split; [apply size_names_le | apply size_names_NoDup].
Qed.

(** The run of one turn on the two bodies named A. *)
Section Namesakes.
Local Open Scope R_scope.

Lemma norm_x_axis x : 0 <= x -> Vec.norm (mkVec3 x 0 0) = x.
Proof.
  intros Hx. unfold Vec.norm. simpl.
  replace (x * x + 0 * 0 + 0 * 0) with (x * x) by lra.
  by apply sqrt_square.
Qed.

Lemma tug_self b : tug b b = Vec.zeros.
Proof.
  unfold tug. destruct (Req_EM_T _ 0) as [_ | H]; [done |].
  exfalso. apply H. by apply norm_sub_eq_0.
Qed.

Lemma tug_near_far : tug twin_near twin_far = mkVec3 (G / 1e16) 0 0.
Proof.
  unfold tug, pair_term. simpl.
  replace (Vec.sub (mkVec3 1e8 0 0) (mkVec3 0 0 0)) with (mkVec3 1e8 0 0)
    by (apply vec_eq; simpl; lra).
  rewrite norm_x_axis by lra.
  destruct (Req_EM_T 1e8 0) as [H | _]; [lra |].
  apply vec_eq; simpl; lra.
Qed.

Lemma tug_far_near : tug twin_far twin_near = mkVec3 (- G / 1e16) 0 0.
Proof.
  unfold tug, pair_term. rewrite norm_sub_sym. simpl.
  replace (Vec.sub (mkVec3 1e8 0 0) (mkVec3 0 0 0)) with (mkVec3 1e8 0 0)
    by (apply vec_eq; simpl; lra).
  rewrite norm_x_axis by lra.
  destruct (Req_EM_T 1e8 0) as [H | _]; [lra |].
  apply vec_eq; simpl; lra.
Qed.

Lemma twins_primed :
  compute_gravitational_accelerations [twin_near; twin_far]
  = [set_acceleration (mkVec3 (G / 1e16) 0 0) twin_near;
     set_acceleration (mkVec3 (- G / 1e16) 0 0) twin_far].
Proof.
  rewrite compute_map. cbn [fmap list_fmap].
  rewrite !tug_self, tug_near_far, tug_far_near.
  f_equal; [| f_equal]; f_equal; apply vec_eq; simpl; lra.
Qed.

(** After the first turn the two are still in the list: 36000 s of their
    pull brings them less than a kilometre closer. *)
Lemma twins_kept :
  store (simulate [twin_near; twin_far] 1)
  = verlet_integration
      (compute_gravitational_accelerations [twin_near; twin_far]) dt.
Proof.
  rewrite simulate_S. unfold turn, simulate. cbn [seq fold_left store].
  transitivity (check_and_merge_collisions
                  (verlet_integration
                     (compute_gravitational_accelerations
                        [twin_near; twin_far]) dt) 1e7);
    [done |].
  rewrite twins_primed. rewrite verlet_map. cbn [fmap list_fmap].
  apply scan_pair_kept. apply norm_ge; [lra |].
  unfold dt, G. simpl. lra.
Qed.
End Namesakes.

(** C7 as stated fails where two bodies share a name: the run of one turn
    on two bodies called A, 1e8 km apart, emits one snapshot, which has one
    key, while the list still holds two bodies. *)
Lemma snapshot_of_namesakes :
  Data (simulate [twin_near; twin_far] 1)
  = [take_snapshot (store (simulate [twin_near; twin_far] 1))]
  /\ size (take_snapshot (store (simulate [twin_near; twin_far] 1))) = 1
  /\ length (store (simulate [twin_near; twin_far] 1)) = 2.
Proof.
  split; [| split].
  - rewrite simulate_S. unfold turn. reflexivity.
  - rewrite twins_kept, snapshot_size, size_names_dups.
    rewrite verlet_map, compute_map. reflexivity.
  - rewrite twins_kept, verlet_map, compute_map. reflexivity.
Qed.

Lemma snapshot_has_one_entry_per_name_witness :
  exists held,
    take_snapshot (store (simulate [earth; moon] 1)) = take_snapshot held
    /\ (exists k, 10 * k < 1
                  /\ held = store (simulate [earth; moon] (S (10 * k))))
    /\ (forall nm, take_snapshot (store (simulate [earth; moon] 1)) !! nm
                   = coordinates <$> last_named nm held)
    /\ (forall nm xyz,
          take_snapshot (store (simulate [earth; moon] 1)) !! nm = Some xyz ->
          length xyz = 3)
    /\ size (take_snapshot (store (simulate [earth; moon] 1)))
       = length (remove_dups (name <$> held))
    /\ size (take_snapshot (store (simulate [earth; moon] 1))) <= length held
    /\ (size (take_snapshot (store (simulate [earth; moon] 1))) = length held
        <-> NoDup (name <$> held)).
Proof.
  apply (snapshot_has_one_entry_per_name [earth; moon] 1).
  rewrite simulate_S. unfold turn. cbn [Nat.modulo Nat.divmod Nat.eqb fst snd].
  cbn [Data store]. apply elem_of_app. right. apply list_elem_of_singleton.
  reflexivity.
Defined.

(** ** Claims on the provider of database.py *)

Section ProviderClaims.
Variable float : string -> option R.
Variable split : string -> list string.

Lemma prompt_vector_accepts line v rest :
  database.floats float split line = Some v -> length v = 3 ->
  database.prompt_vector float split (line :: rest) = database.Returned v rest.
Proof. intros Hv Hlen. simpl. by rewrite Hv, Hlen. Qed.

Lemma prompt_vector_asks_again junk stdin :
  Forall (database.malformed float split) junk ->
  database.prompt_vector float split (junk ++ stdin)
  = database.prompt_vector float split stdin.
Proof.
  induction 1 as [| line junk Hline _ IH]; [done |].
  simpl. destruct (database.floats float split line) as [v |] eqn:Ev; [| done].
  destruct (Nat.eqb_spec (length v) 3) as [Hlen | _]; [| done].
  by destruct (Hline v Ev).
Qed.

Lemma prompt_vector_shape stdin v rest :
  database.prompt_vector float split stdin = database.Returned v rest ->
  length v = 3.
Proof.
  induction stdin as [| line stdin IH]; [done |].
  simpl. destruct (database.floats float split line) as [w |]; [| done].
  destruct (Nat.eqb_spec (length w) 3) as [Hlen | _]; [| done].
  by intros [= <- _].
Qed.

Lemma enter_object_shape stdin o rest :
  database.enter_object float split stdin = database.Returned o rest ->
  database.shaped o.
Proof.
  unfold database.enter_object.
  destruct stdin as [| nm [| mass_line stdin]]; try done. simpl.
  destruct (float mass_line) as [m |]; [| done].
  destruct (database.prompt_vector float split stdin) as [p s1 | |] eqn:Ep;
    try done. simpl.
  destruct (database.prompt_vector float split s1) as [v s2 | |] eqn:Ev;
    try done. simpl.
  intros [= <- _].
  apply prompt_vector_shape in Ep, Ev.
  destruct p as [| ? [| ? [| ? [| ? ?]]]]; try done.
  destruct v as [| ? [| ? [| ? [| ? ?]]]]; try done.
Qed.

Lemma enter_objects_shape n acc stdin bodies rest :
  database.enter_objects float split n acc stdin
  = database.Returned bodies rest ->
  Forall database.shaped acc ->
  length bodies = length acc + n /\ Forall database.shaped bodies.
Proof.
  revert acc stdin. induction n as [| n IH]; intros acc stdin; simpl.
  - intros [= <- _] Hacc. split; [lia | done].
  - destruct (database.enter_object float split stdin) as [o s1 | |] eqn:Eo;
      try done. simpl.
    intros Hrun Hacc. apply IH in Hrun.
    + rewrite length_app in Hrun. simpl in Hrun.
      destruct Hrun as [Hlen Hall]. split; [lia | done].
    + apply Forall_app. split; [done |].
      constructor; [| done]. by eapply enter_object_shape.
Qed.
End ProviderClaims.

(** C8, as the code has it.  Neither [Object.__init__] nor
    get_objects_from_user looks at the sign of a mass: whatever [float]
    makes of the mass line is stored.  A position or velocity line that
    does not give exactly 3 floats is not turned into an error either:
    the prompt is repeated until a line does, so every object that
    get_objects_from_user returns has 3 components in both vectors, while
    [Object.__init__] itself stores vectors of any length. *)
Theorem provider_checks_vector_length_only
    (float : string -> option R) (split : string -> list string)
    (nm mass_line pos_line vel_line : string) (m : R) (pos vel : list R)
    (junk_pos junk_vel rest : list string) :
  float mass_line = Some m ->
  Forall (database.malformed float split) junk_pos ->
  database.floats float split pos_line = Some pos -> length pos = 3 ->
  Forall (database.malformed float split) junk_vel ->
  database.floats float split vel_line = Some vel -> length vel = 3 ->
  database.get_objects_from_user float split 1
    (nm :: mass_line :: junk_pos ++ pos_line :: junk_vel ++ vel_line :: rest)
  = database.Returned [database.Object_init nm m pos vel] rest
  /\ database.mass (database.Object_init nm m pos vel) = m
  /\ (forall n stdin bodies rest',
        database.get_objects_from_user float split n stdin
        = database.Returned bodies rest' ->
        length bodies = n /\ Forall database.shaped bodies)
  /\ (forall nm' m' pos' vel',
        database.mass (database.Object_init nm' m' pos' vel') = m'
        /\ database.position (database.Object_init nm' m' pos' vel') = pos'
        /\ database.velocity (database.Object_init nm' m' pos' vel') = vel').
Proof.
  intros Hm Hjp Hp Hplen Hjv Hv Hvlen. split; [| split; [done | split]].
  - unfold database.get_objects_from_user. simpl.
    unfold database.enter_object. simpl. rewrite Hm.
    rewrite (prompt_vector_asks_again float split junk_pos) by done.
    rewrite (prompt_vector_accepts float split pos_line pos) by done. simpl.
    rewrite (prompt_vector_asks_again float split junk_vel) by done.
    by rewrite (prompt_vector_accepts float split vel_line vel).
  - intros n stdin bodies rest' Hrun.
    by apply (enter_objects_shape float split n [] stdin bodies rest').
  - done.
Qed.

Lemma provider_checks_vector_length_only_witness :
  database.get_objects_from_user database.float_literal database.str_split 1
    ("A" :: "-5" :: ["1 2"] ++ "0 0 0" :: ["x y z"] ++ "1 0 0" :: [])
  = database.Returned
      [database.Object_init "A" (IZR (-5)) [IZR 0; IZR 0; IZR 0]
         [IZR 1; IZR 0; IZR 0]] []
  /\ database.mass
       (database.Object_init "A" (IZR (-5)) [IZR 0; IZR 0; IZR 0]
          [IZR 1; IZR 0; IZR 0]) = IZR (-5)
  /\ (forall n stdin bodies rest',
        database.get_objects_from_user database.float_literal
          database.str_split n stdin
        = database.Returned bodies rest' ->
        length bodies = n
        /\ Forall database.shaped bodies)
  /\ (forall nm' m' pos' vel',
        database.mass (database.Object_init nm' m' pos' vel') = m'
        /\ database.position (database.Object_init nm' m' pos' vel') = pos'
        /\ database.velocity (database.Object_init nm' m' pos' vel') = vel').
Proof.
  apply (provider_checks_vector_length_only
           database.float_literal database.str_split
           "A" "-5" "0 0 0" "1 0 0" (IZR (-5))
           [IZR 0; IZR 0; IZR 0] [IZR 1; IZR 0; IZR 0]
           ["1 2"] ["x y z"] []).
  - reflexivity.
  - constructor; [| constructor]. intros v [= <-]. simpl. lia.
  - reflexivity.
  - reflexivity.
  - constructor; [| constructor]. intros v [=].
  - reflexivity.
  - reflexivity.
Defined.

(** C8 as stated fails: a mass of -5 is taken as it is, the line "1 2" at
    the position prompt leads to another prompt and not to an error, and
    [Object.__init__] builds an object from a zero mass and vectors of 2
    and 0 components. *)
Lemma nonpositive_mass_is_accepted :
  database.get_objects_from_user database.float_literal database.str_split 1
    ["A"; "-5"; "1 2"; "0 0 0"; "0 0 0"]
  = database.Returned
      [database.mkObject "A" (IZR (-5)) [IZR 0; IZR 0; IZR 0]
         [IZR 0; IZR 0; IZR 0] [0%R; 0%R; 0%R]] []
  /\ database.Object_init "B" 0%R [1%R; 2%R] []
     = database.mkObject "B" 0%R [1%R; 2%R] [] [0%R; 0%R; 0%R].
Proof. split; reflexivity. Qed.

(** ** The claims at sample inputs *)

Lemma accelerations_are_newtonian_sums_witness :
  acceleration <$> compute_gravitational_accelerations [earth; moon] !! 0
    = Some (gravity_sum (position earth)
              (attractors [earth; moon] 0 (position earth)))
  /\ (length [earth; moon] = 1 ->
      acceleration <$> compute_gravitational_accelerations [earth; moon] !! 0
        = Some Vec.zeros)
  /\ G = (667430 / 10 ^ 25)%R.
Proof.
  apply (accelerations_are_newtonian_sums [earth; moon] 0 earth).
  reflexivity.
Defined.

Lemma zero_separation_is_skipped_witness :
  pull 0 earth (1, theia) = None
  /\ (forall total_acc, accumulate 0 earth total_acc (1, theia) = total_acc)
  /\ acceleration
       <$> compute_gravitational_accelerations [earth; theia; moon] !! 0
     = Some (gravity_sum (position earth)
               (attractors_without 1 [earth; theia; moon] 0
                  (position earth))).
Proof.
  apply (zero_separation_is_skipped [earth; theia; moon] 0 1 earth theia).
  - reflexivity.
  - reflexivity.
  - lia.
  - reflexivity.
Defined.

Lemma two_bodies_merge_below_threshold_witness :
  (exists survivor,
     check_and_merge_collisions [earth; moon] 1e7 = [survivor]
     /\ mass survivor = (mass earth + mass moon)%R
     /\ position survivor
        = Vec.div (Vec.add (Vec.scale (mass earth) (position earth))
                           (Vec.scale (mass moon) (position moon)))
                  (mass earth + mass moon)%R
     /\ velocity survivor
        = Vec.div (Vec.add (Vec.scale (mass earth) (velocity earth))
                           (Vec.scale (mass moon) (velocity moon)))
                  (mass earth + mass moon)%R
     /\ name survivor = "Earth+Moon")
  /\ check_and_merge_collisions [earth; moon] 3.844e5 = [earth; moon].
Proof.
  split.
  - apply (proj1 (two_bodies_merge_below_threshold earth moon 1e7)).
    apply norm_lt; simpl; lra.
  - apply (proj2 (two_bodies_merge_below_threshold earth moon 3.844e5)).
    apply norm_ge; simpl; lra.
Defined.


Lemma masses_stay_positive_witness :
  Forall (fun b => (0 < mass b)%R)
    (compute_gravitational_accelerations [earth; moon])
  /\ (forall dt,
        Forall (fun b => (0 < mass b)%R) (verlet_integration [earth; moon] dt))
  /\ (forall collision_distance,
        Forall (fun b => (0 < mass b)%R)
          (check_and_merge_collisions [earth; moon] collision_distance)).
Proof.
  apply (masses_stay_positive [earth; moon]).
  repeat constructor; simpl; lra.
Defined.

(** The positive masses of the chain merge are needed, and the code does
    not check them: with masses 2, -1 and 1 at x = 0, 6 and 5 and a
    threshold of 10, every pair is closer than the threshold, the first
    merge puts slot 0 at x = -6, and the third body, 11 away, is kept. *)
Lemma chain_breaks_with_negative_mass :
  ((dist (at_rest "a" 2 0) (at_rest "b" (-1) 6) < 10)%R
   /\ (dist (at_rest "a" 2 0) (at_rest "c" 1 5) < 10)%R
   /\ (dist (at_rest "b" (-1) 6) (at_rest "c" 1 5) < 10)%R)
  /\ check_and_merge_collisions
       [at_rest "a" 2 0; at_rest "b" (-1) 6; at_rest "c" 1 5] 10
     = [merged (at_rest "a" 2 0) (at_rest "b" (-1) 6); at_rest "c" 1 5]
  /\ length (check_and_merge_collisions
               [at_rest "a" 2 0; at_rest "b" (-1) 6; at_rest "c" 1 5] 10) = 2.
Proof.
  assert (check_and_merge_collisions
            [at_rest "a" 2 0; at_rest "b" (-1) 6; at_rest "c" 1 5] 10
          = [merged (at_rest "a" 2 0) (at_rest "b" (-1) 6); at_rest "c" 1 5])
    as Hscan.
  { unfold check_and_merge_collisions.
    rewrite outer_scan_turn. simpl.
    rewrite (inner_scan_merge 10 0 1 _ (at_rest "a" 2 0) (at_rest "b" (-1) 6));
      [| done | done | apply norm_lt; simpl; lra].
    simpl. rewrite inner_scan_turn. simpl.
    destruct (Rlt_dec _ 10) as [Hlt | _].
    { exfalso. apply norm_lt_inv in Hlt. simpl in Hlt.
      replace ((2 * 0 + -1 * 6) / (2 + -1))%R with (-6)%R in Hlt by (field; lra).
      lra. }
    rewrite inner_scan_done by (simpl; lia).
    rewrite outer_scan_turn. simpl.
    rewrite inner_scan_done by (simpl; lia).
    by rewrite outer_scan_done by (simpl; lia). }
  split; [| split; [done | by rewrite Hscan]].
  repeat split; apply norm_lt; simpl; lra.
Qed.

(** ** More on the collision scan: what a pass keeps *)

Section ScanKeeps.
Variable collision_distance : R.

Lemma sum_delete (g : Body -> Vec3) (l : list Body) j b :
  l !! j = Some b ->
  Vec.add (g b) (Vec.sum (g <$> delete j l)) = Vec.sum (g <$> l).
Proof.
  revert j. induction l as [| x l IH]; intros [| j] E; try done.
  - injection E as ->. by rewrite fmap_cons, sum_cons.
  - change (delete (S j) (x :: l)) with (x :: delete j l).
    change (l !! j = Some b) in E.
    rewrite !fmap_cons, !sum_cons, <- (IH j E).
    apply vec_eq; simpl; lra.
Qed.

Lemma sum_insert (g : Body -> Vec3) (l : list Body) i a c :
  l !! i = Some a ->
  Vec.add (g a) (Vec.sum (g <$> <[i := c]> l))
  = Vec.add (g c) (Vec.sum (g <$> l)).
Proof.
  revert i. induction l as [| x l IH]; intros [| i] E; try done.
  - injection E as ->. change (<[0 := c]> (a :: l)) with (c :: l).
    rewrite !fmap_cons, !sum_cons.
    apply vec_eq; simpl; lra.
  - change (<[S i := c]> (x :: l)) with (x :: <[i := c]> l).
    change (l !! i = Some a) in E.
    rewrite !fmap_cons, !sum_cons.
    pose proof (IH i E) as H.
    pose proof (f_equal vx H). pose proof (f_equal vy H).
    pose proof (f_equal vz H).
    apply vec_eq; simpl in *; lra.
Qed.

(** A merge of slot [j] into an earlier slot [i] leaves the sum of any
    quantity that adds up under [merged]. *)
Lemma sum_merge (g : Body -> Vec3) (l : list Body) i j a b :
  i < j -> l !! i = Some a -> l !! j = Some b ->
  g (merged a b) = Vec.add (g a) (g b) ->
  Vec.sum (g <$> delete j (<[i := merged a b]> l)) = Vec.sum (g <$> l).
Proof.
  intros Hij Ei Ej Hg.
  assert (<[i := merged a b]> l !! j = Some b) as Ej'
    by (rewrite list_lookup_insert_ne by lia; done).
  pose proof (sum_delete g _ j b Ej') as Hd.
  pose proof (sum_insert g l i a (merged a b) Ei) as Hi.
  rewrite Hg in Hi.
  pose proof (f_equal vx Hd). pose proof (f_equal vy Hd).
  pose proof (f_equal vz Hd).
  pose proof (f_equal vx Hi). pose proof (f_equal vy Hi).
  pose proof (f_equal vz Hi).
  apply vec_eq; simpl in *; lra.
Qed.

Section Conserved.
Variable ok : Body -> Prop.
Variable g : Body -> Vec3.
Hypothesis ok_merged : forall a b, ok a -> ok b -> ok (merged a b).
Hypothesis g_merged :
  forall a b, ok a -> ok b -> g (merged a b) = Vec.add (g a) (g b).

Lemma inner_scan_conserves i j bodies :
  i < j -> Forall ok bodies ->
  Forall ok (inner_scan collision_distance i j bodies)
  /\ Vec.sum (g <$> inner_scan collision_distance i j bodies)
     = Vec.sum (g <$> bodies).
Proof.
  funelim (inner_scan collision_distance i j bodies); try done.
  - intros Hij Hall.
    assert (ok obj_i /\ ok obj_j) as [Hoi Hoj].
    { rewrite Forall_lookup in Hall. split; eapply Hall; eauto. }
    match goal with IH : _ -> _ -> _ /\ _ |- _ =>
      destruct (IH Hij) as [Hok Hsum] end.
    { apply Forall_delete, Forall_insert; [done |]. by apply ok_merged. }
    split; [done |]. rewrite Hsum.
    apply sum_merge; try done. by apply g_merged.
  - intros Hij Hall.
    match goal with IH : _ -> _ -> _ /\ _ |- _ => apply IH; [lia | done] end.
Qed.

Lemma outer_scan_conserves i bodies :
  Forall ok bodies ->
  Forall ok (outer_scan collision_distance i bodies)
  /\ Vec.sum (g <$> outer_scan collision_distance i bodies)
     = Vec.sum (g <$> bodies).
Proof.
  funelim (outer_scan collision_distance i bodies); [| done].
  intros Hall.
  destruct (inner_scan_conserves i (S i) bodies) as [Hok Hsum];
    [lia | done |].
  match goal with IH : _ -> _ /\ _ |- _ => destruct (IH Hok) as [Hok' Hsum'] end.
  split; [done |]. by rewrite Hsum'.
Qed.
End Conserved.
End ScanKeeps.

Section ScanShape.
Variable collision_distance : R.

Lemma outer_scan_length i bodies :
  length (outer_scan collision_distance i bodies) <= length bodies.
Proof.
  funelim (outer_scan collision_distance i bodies); [| done].
  pose proof (inner_scan_length collision_distance i (S i) bodies). lia.
Qed.

(** The inner loop pops at slot [j] only, so the slots below [j] stay. *)
Lemma inner_scan_front i j bodies :
  j <= length bodies ->
  j <= length (inner_scan collision_distance i j bodies).
Proof.
  funelim (inner_scan collision_distance i j bodies); try done.
  - intros _. match goal with IH : _ -> _ <= _ |- _ => apply IH end.
    rewrite length_delete, length_insert; [lia |].
    apply lookup_lt_is_Some. by rewrite length_insert.
  - intros _. match goal with IH : _ -> _ <= _ |- _ => specialize (IH l) end.
    lia.
Qed.

Lemma outer_scan_front i bodies :
  i <= length bodies ->
  i <= length (outer_scan collision_distance i bodies).
Proof.
  funelim (outer_scan collision_distance i bodies); [| done].
  intros _.
  pose proof (inner_scan_front i (S i) bodies l).
  match goal with IH : _ -> _ <= _ |- _ => specialize (IH ltac:(lia)) end.
  lia.
Qed.

(** A turn of the inner loop that keeps the length has merged nothing: the
    list is as it was, and slot [i] was found at [collision_distance] or
    more from every slot from [j] on. *)
Lemma inner_scan_same_length i j bodies :
  length (inner_scan collision_distance i j bodies) = length bodies ->
  inner_scan collision_distance i j bodies = bodies
  /\ (forall k obj_i obj_k,
        j <= k -> bodies !! i = Some obj_i -> bodies !! k = Some obj_k ->
        (collision_distance <= dist obj_i obj_k)%R).
Proof.
  funelim (inner_scan collision_distance i j bodies).
  - intros _. split; [done |]. intros k oi ok Hk _ Ek.
    apply lookup_lt_Some in Ek. lia.
  - intros _. split; [done |]. intros k oi ok _ Ei _. congruence.
  - intros _. split; [done |]. intros k oi ok _ _ _.
    apply lookup_ge_None in Heq. lia.
  - intros Hlen. exfalso.
    pose proof (inner_scan_length collision_distance i j
                  (delete j (<[i := merged obj_i obj_j]> bodies))) as Hle.
    rewrite length_delete, length_insert in Hle; [lia |].
    apply lookup_lt_is_Some. by rewrite length_insert.
  - intros Hlen.
    match goal with IH : _ -> _ /\ _ |- _ => destruct (IH Hlen) as [Heq' Hfar] end.
    split; [done |]. intros k oi ok Hk Ei Ek.
    destruct (decide (k = j)) as [-> | Hne].
    + assert (oi = obj_i) as -> by congruence.
      assert (ok = obj_j) as -> by congruence.
      by apply Rnot_lt_le.
    + apply (Hfar k); [lia | done | done].
Qed.

Lemma outer_scan_same_length i bodies :
  length (outer_scan collision_distance i bodies) = length bodies ->
  outer_scan collision_distance i bodies = bodies
  /\ (forall i' k obj_i obj_k,
        i <= i' -> i' < k ->
        bodies !! i' = Some obj_i -> bodies !! k = Some obj_k ->
        (collision_distance <= dist obj_i obj_k)%R).
Proof.
  funelim (outer_scan collision_distance i bodies).
  - intros Hlen.
    pose proof (inner_scan_length collision_distance i (S i) bodies) as Hin.
    pose proof (outer_scan_length (S i)
                  (inner_scan collision_distance i (S i) bodies)) as Hout.
    destruct (inner_scan_same_length i (S i) bodies) as [Hsame Hfar]; [lia |].
    rewrite Hsame in *.
    match goal with IH : _ -> _ /\ _ |- _ => destruct (IH Hlen) as [Heq' Hrest] end.
    split; [done |]. intros i' k oi ok Hi Hk Ei Ek.
    destruct (decide (i' = i)) as [-> | Hne].
    + apply (Hfar k); [lia | done | done].
    + apply (Hrest i' k); [lia | lia | done | done].
  - intros _. split; [done |]. intros i' k oi ok Hi Hk _ Ek.
    apply lookup_lt_Some in Ek. lia.
Qed.

Lemma inner_scan_separated i j bodies :
  i < j -> separated collision_distance bodies ->
  inner_scan collision_distance i j bodies = bodies.
Proof.
  funelim (inner_scan collision_distance i j bodies); try done.
  - intros Hij Hsep. exfalso.
    pose proof (Hsep i j obj_i obj_j Hij ltac:(done) ltac:(done)). lra.
  - intros Hij Hsep.
    match goal with IH : _ -> _ -> _ = _ |- _ => apply IH; [lia | done] end.
Qed.

Lemma outer_scan_separated i bodies :
  separated collision_distance bodies ->
  outer_scan collision_distance i bodies = bodies.
Proof.
  funelim (outer_scan collision_distance i bodies); [| done].
  intros Hsep.
  rewrite inner_scan_separated in * by (done || lia).
  match goal with IH : _ -> _ = _ |- _ => by apply IH end.
Qed.

(** The accelerations in the list after the inner loop are among the ones
    before it, in their order. *)
Lemma inner_scan_accelerations i j bodies :
  acceleration <$> inner_scan collision_distance i j bodies
  `sublist_of` acceleration <$> bodies.
Proof.
  funelim (inner_scan collision_distance i j bodies); try done.
  match goal with IH : _ `sublist_of` _ |- _ => etrans; [apply IH |] end.
  rewrite list_fmap_delete, list_fmap_insert.
  rewrite (list_insert_id (acceleration <$> bodies) i)
    by (rewrite list_lookup_fmap; by match goal with H : bodies !! i = _ |- _ =>
          rewrite H end).
  apply sublist_delete.
Qed.

Lemma outer_scan_accelerations i bodies :
  acceleration <$> outer_scan collision_distance i bodies
  `sublist_of` acceleration <$> bodies.
Proof.
  funelim (outer_scan collision_distance i bodies); [| done].
  match goal with IH : _ `sublist_of` _ |- _ => etrans; [apply IH |] end.
  apply inner_scan_accelerations.
Qed.
End ScanShape.

(** ** Properties of check_and_merge_collisions *)

Lemma total_mass_sum bodies :
  Vec.sum ((fun b => mkVec3 (mass b) 0 0) <$> bodies)
  = mkVec3 (total_mass bodies) 0 0.
Proof.
  unfold total_mass. induction bodies as [| b bodies IH]; [done |].
  rewrite !fmap_cons, sum_cons, IH. apply vec_eq; simpl; lra.
Qed.

Lemma merged_momentum a b :
  (0 < mass a)%R -> (0 < mass b)%R ->
  Vec.scale (mass (merged a b)) (velocity (merged a b))
  = Vec.add (Vec.scale (mass a) (velocity a)) (Vec.scale (mass b) (velocity b)).
Proof.
  intros Ha Hb. apply vec_eq; simpl; field; lra.
Qed.

Lemma merged_moment a b :
  (0 < mass a)%R -> (0 < mass b)%R ->
  Vec.scale (mass (merged a b)) (position (merged a b))
  = Vec.add (Vec.scale (mass a) (position a)) (Vec.scale (mass b) (position b)).
Proof.
  intros Ha Hb. apply vec_eq; simpl; field; lra.
Qed.

(** X1. A pass of check_and_merge_collisions leaves the sum of the masses
    as it was, whatever the masses and the threshold. *)
Theorem merge_pass_keeps_total_mass (bodies : list Body)
    (collision_distance : R) :
  total_mass (check_and_merge_collisions bodies collision_distance)
  = total_mass bodies.
Proof.
  destruct (outer_scan_conserves collision_distance (fun _ => True)
              (fun b => mkVec3 (mass b) 0 0)
              ltac:(done) ltac:(intros; apply vec_eq; simpl; lra)
              0 bodies) as [_ Hsum].
  { by apply Forall_forall. }
  unfold check_and_merge_collisions.
  rewrite !total_mass_sum in Hsum. by injection Hsum.
Qed.

(** X2. When every mass is strictly positive, a pass of
    check_and_merge_collisions leaves the total momentum and the sum of
    [mass * position] (so the centre of mass) as they were, in exact
    arithmetic. *)
Theorem merge_pass_keeps_momentum (bodies : list Body)
    (collision_distance : R) :
  Forall (fun b => (0 < mass b)%R) bodies ->
  momentum (check_and_merge_collisions bodies collision_distance)
  = momentum bodies
  /\ mass_moment (check_and_merge_collisions bodies collision_distance)
     = mass_moment bodies.
Proof.
  intros Hpos. unfold check_and_merge_collisions, momentum, mass_moment.
  split.
  - apply (outer_scan_conserves collision_distance
             (fun b => (0 < mass b)%R)
             (fun b => Vec.scale (mass b) (velocity b))
             (merged_mass_pos) merged_momentum 0 bodies Hpos).
  - apply (outer_scan_conserves collision_distance
             (fun b => (0 < mass b)%R)
             (fun b => Vec.scale (mass b) (position b))
             (merged_mass_pos) merged_moment 0 bodies Hpos).
Qed.

Lemma merge_pass_keeps_momentum_witness :
  momentum (check_and_merge_collisions [earth; theia; moon] 1e7)
  = momentum [earth; theia; moon]
  /\ mass_moment (check_and_merge_collisions [earth; theia; moon] 1e7)
     = mass_moment [earth; theia; moon].
Proof.
  apply (merge_pass_keeps_momentum [earth; theia; moon] 1e7).
  repeat constructor; simpl; lra.
Defined.

(** X3. A pass never lengthens the list and never empties it: a list with
    a body in it keeps at least one, and a list of at most one body is
    returned as it is. *)
Theorem merge_pass_shrinks_but_not_to_nothing (bodies : list Body)
    (collision_distance : R) :
  length (check_and_merge_collisions bodies collision_distance)
    <= length bodies
  /\ (0 < length bodies ->
      0 < length (check_and_merge_collisions bodies collision_distance))
  /\ (length bodies <= 1 ->
      check_and_merge_collisions bodies collision_distance = bodies).
Proof.
  unfold check_and_merge_collisions. split; [apply outer_scan_length |].
  split.
  - intros Hlen. rewrite outer_scan_turn.
    case_decide; [| lia].
    pose proof (inner_scan_front collision_distance 0 1 bodies ltac:(lia)).
    pose proof (outer_scan_front collision_distance 1
                  (inner_scan collision_distance 0 1 bodies) ltac:(lia)).
    lia.
  - intros Hlen. apply outer_scan_same_length.
    destruct bodies as [| b [| ? ?]]; simpl in Hlen; try lia.
    + by rewrite outer_scan_done.
    + rewrite outer_scan_turn. simpl.
      rewrite inner_scan_done by (simpl; lia).
      by rewrite outer_scan_done by (simpl; lia).
Qed.

(** X4. A pass returns the list unchanged exactly when no body of a later
    slot is closer than collision_distance to a body of an earlier slot;
    and it is unchanged as soon as its length is. *)
Theorem merge_pass_unchanged_iff_separated (bodies : list Body)
    (collision_distance : R) :
  (check_and_merge_collisions bodies collision_distance = bodies
   <-> separated collision_distance bodies)
  /\ (length (check_and_merge_collisions bodies collision_distance)
      = length bodies ->
      check_and_merge_collisions bodies collision_distance = bodies).
Proof.
  unfold check_and_merge_collisions. split; [split |].
  - intros Heq.
    destruct (outer_scan_same_length collision_distance 0 bodies) as [_ Hfar];
      [by rewrite Heq |].
    intros i j oi oj Hij Ei Ej. apply (Hfar i j); [lia | done | done | done].
  - apply outer_scan_separated.
  - apply outer_scan_same_length.
Qed.

(** X5. With a threshold of zero or less nothing is merged, not even two
    bodies at the same place: the test is [dist < collision_distance]. *)
Theorem nonpositive_threshold_merges_nothing (bodies : list Body)
    (collision_distance : R) :
  (collision_distance <= 0)%R ->
  check_and_merge_collisions bodies collision_distance = bodies.
Proof.
  intros Hcd. apply outer_scan_separated.
  intros i j oi oj _ _ _.
  pose proof (norm_nonneg (Vec.sub (position oi) (position oj))).
  unfold dist. lra.
Qed.

Lemma nonpositive_threshold_merges_nothing_witness :
  check_and_merge_collisions [earth; theia; moon] 0 = [earth; theia; moon].
Proof.
  apply (nonpositive_threshold_merges_nothing [earth; theia; moon] 0). lra.
Defined.

(** X6. A pass computes no acceleration: the accelerations stored in the
    list after it are among those stored before it, in the same order (a
    survivor keeps the one it had). *)
Theorem merge_pass_keeps_stale_accelerations (bodies : list Body)
    (collision_distance : R) :
  acceleration <$> check_and_merge_collisions bodies collision_distance
  `sublist_of` acceleration <$> bodies.
Proof. apply outer_scan_accelerations. Qed.

(** ** Properties of compute_gravitational_accelerations *)

Section ForceProperties.
Local Open Scope R_scope.

Lemma tug_frame a a' b b' :
  position a = position a' -> position b = position b' -> mass b = mass b' ->
  tug a b = tug a' b'.
Proof. intros Ha Hb Hm. unfold tug, pair_term. by rewrite Ha, Hb, Hm. Qed.

Lemma compute_accelerations bodies :
  acceleration <$> compute_gravitational_accelerations bodies
  = (fun o => Vec.sum (tug o <$> bodies)) <$> bodies.
Proof. rewrite compute_map, <- list_fmap_compose. done. Qed.

(** What the force evaluation stores depends on the masses and positions
    in the list and on nothing else. *)
Lemma compute_accelerations_ext (l1 l2 : list Body) :
  mass <$> l1 = mass <$> l2 -> position <$> l1 = position <$> l2 ->
  acceleration <$> compute_gravitational_accelerations l1
  = acceleration <$> compute_gravitational_accelerations l2.
Proof.
  intros Hm Hp.
  assert (forall i o1 o2, l1 !! i = Some o1 -> l2 !! i = Some o2 ->
            mass o1 = mass o2 /\ position o1 = position o2) as Hsame.
  { intros i o1 o2 E1 E2.
    pose proof (f_equal (fun l => l !! i) Hm) as Hmi.
    pose proof (f_equal (fun l => l !! i) Hp) as Hpi. cbv beta in Hmi, Hpi.
    rewrite !list_lookup_fmap, E1, E2 in Hmi.
    rewrite !list_lookup_fmap, E1, E2 in Hpi.
    by injection Hmi; injection Hpi. }
  assert (length l1 = length l2) as Hlen
    by (rewrite <- (length_fmap mass l1), Hm; apply length_fmap).
  assert (forall i, is_Some (l1 !! i) <-> is_Some (l2 !! i)) as Hdom
    by (intros i; rewrite !lookup_lt_is_Some; lia).
  assert (forall a a', position a = position a' ->
            tug a <$> l1 = tug a' <$> l2) as Htug.
  { intros a a' Ha. apply list_eq; intros i. rewrite !list_lookup_fmap.
    destruct (l1 !! i) as [o1 |] eqn:E1, (l2 !! i) as [o2 |] eqn:E2; simpl.
    - f_equal. destruct (Hsame i o1 o2 E1 E2). by apply tug_frame.
    - destruct (proj1 (Hdom i)) as [? ?]; [by rewrite E1 | congruence].
    - destruct (proj2 (Hdom i)) as [? ?]; [by rewrite E2 | congruence].
    - done. }
  rewrite !compute_accelerations. apply list_eq; intros i.
  rewrite !list_lookup_fmap.
  destruct (l1 !! i) as [o1 |] eqn:E1, (l2 !! i) as [o2 |] eqn:E2; simpl.
  - do 2 f_equal. apply Htug. by destruct (Hsame i o1 o2 E1 E2).
  - destruct (proj1 (Hdom i)) as [? ?]; [by rewrite E1 | congruence].
  - destruct (proj2 (Hdom i)) as [? ?]; [by rewrite E2 | congruence].
  - done.
Qed.

Lemma tug_shifted d a b : tug (shifted d a) (shifted d b) = tug a b.
Proof.
  unfold tug, pair_term. simpl.
  replace (Vec.sub (Vec.add (position b) d) (Vec.add (position a) d))
    with (Vec.sub (position b) (position a))
    by (apply vec_eq; simpl; lra).
  done.
Qed.

Lemma norm_scale k a : Vec.norm (Vec.scale k a) = Rabs k * Vec.norm a.
Proof.
  unfold Vec.norm. simpl.
  replace (k * vx a * (k * vx a) + k * vy a * (k * vy a)
           + k * vz a * (k * vz a))
    with (Rsqr k * (vx a * vx a + vy a * vy a + vz a * vz a))
    by (unfold Rsqr; ring).
  rewrite sqrt_mult; [| apply Rle_0_sqr | nra].
  by rewrite sqrt_Rsqr_abs.
Qed.

Lemma G_pos : 0 < G.
Proof. unfold G. lra. Qed.
End ForceProperties.

(** X7. The accelerations compute_gravitational_accelerations stores
    depend on the masses and positions in the list only: two lists that
    agree on these slot by slot get the same accelerations, whatever their
    names, velocities and stored accelerations. *)
Theorem force_reads_mass_and_position_only (l1 l2 : list Body) :
  mass <$> l1 = mass <$> l2 -> position <$> l1 = position <$> l2 ->
  acceleration <$> compute_gravitational_accelerations l1
  = acceleration <$> compute_gravitational_accelerations l2.
Proof. apply compute_accelerations_ext. Qed.

Lemma force_reads_mass_and_position_only_witness :
  acceleration <$> compute_gravitational_accelerations [earth; pushed]
  = acceleration
      <$> compute_gravitational_accelerations
            [set_velocity (mkVec3 1 2 3) earth; at_rest "other" 1 0].
Proof.
  apply (force_reads_mass_and_position_only [earth; pushed]
           [set_velocity (mkVec3 1 2 3) earth; at_rest "other" 1 0]);
    reflexivity.
Defined.

(** X8. A second call of compute_gravitational_accelerations changes
    nothing. *)
Theorem force_evaluation_is_idempotent (bodies : list Body) :
  compute_gravitational_accelerations
    (compute_gravitational_accelerations bodies)
  = compute_gravitational_accelerations bodies.
Proof. apply compute_primes. Qed.

(** X9. After compute_gravitational_accelerations the accelerations,
    weighted by mass, add up to zero (Newton's third law), in exact
    arithmetic and for any masses. *)
Theorem forces_add_up_to_zero (bodies : list Body) :
  net_force (compute_gravitational_accelerations bodies) = Vec.zeros.
Proof. apply net_force_compute. Qed.

(** X10. Moving every body by the same vector changes no acceleration. *)
Theorem force_is_translation_invariant (d : Vec3) (bodies : list Body) :
  acceleration <$> compute_gravitational_accelerations (shifted d <$> bodies)
  = acceleration <$> compute_gravitational_accelerations bodies.
Proof.
  rewrite !compute_accelerations, <- list_fmap_compose.
  apply list_fmap_ext. intros i o _. simpl. f_equal.
  rewrite <- list_fmap_compose. apply list_fmap_ext. intros j b _.
  apply tug_shifted.
Qed.

(** X11. For two bodies at different positions the force evaluation gives
    the first one an acceleration along the line to the second, of
    magnitude [G * |mass_2| / r^2] with [r] their distance: the law of the
    docstring, [a = G * (m / r^2) * (unit vector of r)]. *)
Theorem two_body_inverse_square (a b : Body) :
  position a ≠ position b ->
  acceleration <$> compute_gravitational_accelerations [a; b] !! 0
  = Some (Vec.scale (G * mass b / dist a b ^ 2)%R
            (Vec.div (Vec.sub (position b) (position a)) (dist a b)))
  /\ (forall acc,
        acceleration <$> compute_gravitational_accelerations [a; b] !! 0
          = Some acc ->
        Vec.norm acc = (G * Rabs (mass b) / dist a b ^ 2)%R).
Proof.
  intros Hne.
  assert (dist a b ≠ 0%R) as Hr.
  { unfold dist. intros H. by apply norm_sub_eq_0 in H. }
  assert (0 < dist a b)%R as Hrpos.
  { pose proof (norm_nonneg (Vec.sub (position a) (position b))).
    unfold dist in *. lra. }
  assert (acceleration <$> compute_gravitational_accelerations [a; b] !! 0
          = Some (Vec.scale (G * mass b / dist a b ^ 2)%R
                    (Vec.div (Vec.sub (position b) (position a)) (dist a b))))
    as Hacc.
  { rewrite compute_map. cbn [fmap list_fmap lookup list_lookup option_fmap
                               option_map acceleration set_acceleration].
    f_equal. rewrite !sum_cons, sum_nil, tug_self, add_zeros_l, add_zeros_r.
    unfold tug, pair_term.
    rewrite (norm_sub_sym (position b) (position a)).
    fold (dist a b).
    destruct (Req_EM_T (dist a b) 0) as [H0 | _]; [done |].
    apply vec_eq; simpl; field; done. }
  split; [done |].
  intros acc. rewrite Hacc. intros [= <-].
  rewrite norm_scale.
  assert (Vec.norm (Vec.div (Vec.sub (position b) (position a)) (dist a b))
          = 1%R) as ->.
  { replace (Vec.div (Vec.sub (position b) (position a)) (dist a b))
      with (Vec.scale (/ dist a b) (Vec.sub (position b) (position a)))
      by (apply vec_eq; simpl; unfold Rdiv; ring).
    rewrite norm_scale, (norm_sub_sym (position b) (position a)).
    fold (dist a b). rewrite Rabs_pos_eq.
    - by apply Rinv_l.
    - apply Rlt_le, Rinv_0_lt_compat. done. }
  pose proof G_pos.
  unfold Rdiv. rewrite !Rabs_mult, (Rabs_pos_eq G) by lra.
  rewrite (Rabs_pos_eq (/ _)).
  - simpl. lra.
  - apply Rlt_le, Rinv_0_lt_compat. nra.
Qed.

Lemma two_body_inverse_square_witness :
  acceleration <$> compute_gravitational_accelerations [earth; moon] !! 0
  = Some (Vec.scale (G * mass moon / dist earth moon ^ 2)%R
            (Vec.div (Vec.sub (position moon) (position earth))
               (dist earth moon)))
  /\ (forall acc,
        acceleration <$> compute_gravitational_accelerations [earth; moon] !! 0
          = Some acc ->
        Vec.norm acc = (G * Rabs (mass moon) / dist earth moon ^ 2)%R).
Proof.
  apply (two_body_inverse_square earth moon).
  intros H. apply (f_equal vx) in H. simpl in H. lra.
Defined.

(** X12. Bodies that all sit at one position exert nothing on each other:
    every acceleration is set to zero. *)
Theorem colocated_bodies_feel_nothing (p : Vec3) (bodies : list Body) :
  Forall (fun b => position b = p) bodies ->
  acceleration <$> compute_gravitational_accelerations bodies
  = (fun _ => Vec.zeros) <$> bodies.
Proof.
  intros Hall. rewrite compute_accelerations.
  rewrite Forall_lookup in Hall.
  apply list_fmap_ext. intros i o Eo. cbv beta.
  rewrite (list_fmap_ext (tug o) (fun _ => Vec.zeros) bodies).
  - by apply sum_zeros_map.
  - intros j b Eb. unfold tug.
    rewrite (Hall i o Eo), (Hall j b Eb), sub_diag.
    destruct (Req_EM_T _ 0) as [_ | H0]; [done |].
    exfalso. apply H0. by apply norm_eq_0.
Qed.

Lemma colocated_bodies_feel_nothing_witness :
  acceleration <$> compute_gravitational_accelerations [earth; theia; pushed]
  = (fun _ => Vec.zeros) <$> [earth; theia; pushed].
Proof.
  apply (colocated_bodies_feel_nothing Vec.zeros [earth; theia; pushed]).
  repeat constructor.
Defined.

(** ** Properties of verlet_integration *)

Section VerletProperties.
Local Open Scope R_scope.

Lemma set_acceleration_same o : set_acceleration (acceleration o) o = o.
Proof. by destruct o. Qed.

(** A list is primed as soon as the force evaluation would store the
    accelerations it already holds. *)
Lemma primed_by_accelerations bodies :
  acceleration <$> compute_gravitational_accelerations bodies
  = acceleration <$> bodies ->
  primed bodies.
Proof.
  intros Hacc. unfold primed. apply list_eq; intros i.
  pose proof (f_equal (fun l => l !! i) Hacc) as Hi. cbv beta in Hi.
  rewrite !list_lookup_fmap, compute_lookup in Hi.
  rewrite compute_lookup.
  destruct (bodies !! i) as [o |]; [| done].
  cbv [fmap option_fmap option_map] in *. injection Hi as ->.
  by rewrite set_acceleration_same.
Qed.

(** A slot of the list after a step, from the slot before it and the slot
    the force evaluation returned. *)
Lemma verlet_slot bodies dt i :
  verlet_integration bodies dt !! i
  = match bodies !! i,
          compute_gravitational_accelerations (all_moved dt bodies) !! i with
    | Some b, Some c =>
        Some (mkBody (name b) (mass b) (drifted dt b)
                (kicked dt (velocity b) (acceleration b) (acceleration c))
                (acceleration c))
    | _, _ => None
    end.
Proof.
  rewrite verlet_phases, lookup_zip_with, compute_lookup. unfold all_moved.
  rewrite list_lookup_fmap. by destruct (bodies !! i).
Qed.

Lemma verlet_length bodies dt :
  length (verlet_integration bodies dt) = length bodies.
Proof. by rewrite verlet_map, length_fmap. Qed.

Lemma verlet_positions bodies dt :
  position <$> verlet_integration bodies dt = drifted dt <$> bodies.
Proof. rewrite verlet_map, <- list_fmap_compose. done. Qed.

Lemma verlet_accelerations bodies dt :
  acceleration <$> verlet_integration bodies dt
  = acceleration
      <$> compute_gravitational_accelerations (all_moved dt bodies).
Proof.
  apply list_eq; intros i.
  rewrite !list_lookup_fmap, verlet_slot, compute_lookup.
  unfold all_moved. rewrite list_lookup_fmap.
  by destruct (bodies !! i).
Qed.

Lemma all_moved_matter bodies dt :
  mass <$> all_moved dt bodies = mass <$> bodies
  /\ position <$> all_moved dt bodies = drifted dt <$> bodies.
Proof. unfold all_moved. by rewrite <- !list_fmap_compose. Qed.

Lemma verlet_primed bodies dt : primed (verlet_integration bodies dt).
Proof.
  apply primed_by_accelerations.
  rewrite verlet_accelerations.
  pose proof (compute_primes (all_moved dt bodies)) as Hagain.
  unfold primed in Hagain. rewrite <- Hagain.
  destruct (all_moved_matter bodies dt) as [Hm Hp].
  apply compute_accelerations_ext.
  - rewrite verlet_keeps_mass, compute_keeps_mass. by rewrite Hm.
  - rewrite verlet_positions, <- Hp.
    apply list_eq; intros i.
    rewrite !list_lookup_fmap, compute_lookup.
    by destruct (all_moved dt bodies !! i).
Qed.

Lemma all_moved_0 bodies : all_moved 0 bodies = bodies.
Proof.
  unfold all_moved. rewrite <- (list_fmap_id bodies) at 2.
  apply list_fmap_ext. intros i [nm m p v a] _. unfold set_position.
  simpl. f_equal. apply vec_eq; simpl; lra.
Qed.
End VerletProperties.

(** X13. A step of length zero moves nothing: verlet_integration with
    [dt = 0] leaves positions and velocities as they were and only
    stores fresh accelerations, as compute_gravitational_accelerations
    does. *)
Theorem verlet_zero_step (bodies : list Body) :
  verlet_integration bodies 0 = compute_gravitational_accelerations bodies.
Proof.
  apply list_eq; intros i. rewrite verlet_slot, all_moved_0.
  rewrite compute_lookup.
  destruct (bodies !! i) as [[nm m p v a] |]; [| done].
  cbv [fmap option_fmap option_map]. f_equal.
  unfold set_acceleration. simpl. f_equal; apply vec_eq; simpl; lra.
Qed.

(** X14. After verlet_integration the stored accelerations are the ones
    of the positions in the list: a call of
    compute_gravitational_accelerations right after it changes nothing. *)
Theorem verlet_leaves_accelerations_current (bodies : list Body) (dt : R) :
  compute_gravitational_accelerations (verlet_integration bodies dt)
  = verlet_integration bodies dt.
Proof. apply verlet_primed. Qed.

Section Reversal.
Local Open Scope R_scope.
Variable dt : R.
Variable bodies : list Body.
Hypothesis bodies_primed : primed bodies.

Lemma stepped_slot i b :
  bodies !! i = Some b ->
  exists a_new,
    verlet_integration bodies dt !! i
    = Some (mkBody (name b) (mass b) (drifted dt b)
              (kicked dt (velocity b) (acceleration b) a_new) a_new).
Proof.
  intros E. rewrite verlet_slot, E.
  destruct (compute_gravitational_accelerations (all_moved dt bodies) !! i)
    as [c |] eqn:Ec; [by eexists |].
  apply lookup_ge_None in Ec. apply lookup_lt_Some in E.
  unfold all_moved in Ec. rewrite compute_length, length_fmap in Ec. lia.
Qed.

Lemma back_positions :
  position <$> all_moved (- dt) (verlet_integration bodies dt)
  = position <$> bodies.
Proof.
  rewrite (proj2 (all_moved_matter _ _)).
  apply list_eq; intros i. rewrite !list_lookup_fmap.
  destruct (bodies !! i) as [b |] eqn:E.
  - destruct (stepped_slot i b E) as [a_new ->].
    cbv [fmap option_fmap option_map]. f_equal.
    destruct b as [nm m p v a]. apply vec_eq; simpl; lra.
  - rewrite (proj2 (lookup_ge_None _ i)); [done |].
    rewrite verlet_length. by apply lookup_ge_None.
Qed.

Lemma back_accelerations :
  acceleration
    <$> compute_gravitational_accelerations
          (all_moved (- dt) (verlet_integration bodies dt))
  = acceleration <$> bodies.
Proof.
  transitivity (acceleration <$> compute_gravitational_accelerations bodies);
    [| by rewrite bodies_primed].
  apply compute_accelerations_ext.
  - by rewrite (proj1 (all_moved_matter _ _)), verlet_keeps_mass.
  - apply back_positions.
Qed.

Lemma verlet_back :
  verlet_integration (verlet_integration bodies dt) (- dt) = bodies.
Proof.
  apply list_eq; intros i. rewrite verlet_slot.
  pose proof (f_equal (fun l => l !! i) back_accelerations) as Hacc.
  cbv beta in Hacc. rewrite !list_lookup_fmap in Hacc.
  destruct (bodies !! i) as [b |] eqn:E.
  - destruct (stepped_slot i b E) as [a_new ->].
    destruct (compute_gravitational_accelerations _ !! i) as [c |];
      [| done].
    cbv [fmap option_fmap option_map] in Hacc. injection Hacc as Hc.
    rewrite Hc. destruct b as [nm m p v a]. simpl. f_equal.
    f_equal; apply vec_eq; simpl; lra.
  - rewrite (proj2 (lookup_ge_None (verlet_integration bodies dt) i));
      [done |].
    rewrite verlet_length. by apply lookup_ge_None.
Qed.
End Reversal.

(** X15. verlet_integration can be undone: on a list whose stored
    accelerations are current, a step of [dt] followed by a step of [-dt]
    gives back every name, mass, position, velocity and acceleration, in
    exact arithmetic. *)
Theorem verlet_is_reversible (bodies : list Body) (dt : R) :
  primed bodies ->
  verlet_integration (verlet_integration bodies dt) (- dt) = bodies.
Proof. apply verlet_back. Qed.

Lemma verlet_is_reversible_witness :
  verlet_integration
    (verlet_integration
       (compute_gravitational_accelerations [earth; moon]) 3600) (- 3600)
  = compute_gravitational_accelerations [earth; moon].
Proof.
  apply (verlet_is_reversible
           (compute_gravitational_accelerations [earth; moon]) 3600).
  apply compute_primes.
Defined.

Lemma moment_verlet bodies dt :
  mass_moment (verlet_integration bodies dt)
  = Vec.add (Vec.add (mass_moment bodies) (Vec.scale dt (momentum bodies)))
      (Vec.scale (0.5 * dt ^ 2)%R (net_force bodies)).
Proof.
  unfold mass_moment, momentum, net_force. rewrite verlet_map.
  rewrite <- !list_fmap_compose.
  rewrite (list_fmap_ext _
    (fun b => Vec.add
       (Vec.add (Vec.scale (mass b) (position b))
          (Vec.scale dt (Vec.scale (mass b) (velocity b))))
       (Vec.scale (0.5 * dt ^ 2)%R (Vec.scale (mass b) (acceleration b))))
    bodies).
  - by rewrite !sum_add_map, !sum_scale_map.
  - intros k b _. apply vec_eq; simpl; lra.
Qed.

(** X16. A step moves the sum of [mass * position] by [dt] times the
    momentum plus [0.5 * dt^2] times the mass-weighted sum of the stored
    accelerations; on a list whose accelerations are current the centre of
    mass therefore moves in a straight line at constant speed. *)
Theorem centre_of_mass_moves_uniformly (bodies : list Body) (dt : R) :
  mass_moment (verlet_integration bodies dt)
  = Vec.add (Vec.add (mass_moment bodies) (Vec.scale dt (momentum bodies)))
      (Vec.scale (0.5 * dt ^ 2)%R (net_force bodies))
  /\ (primed bodies ->
      forall n,
        mass_moment (verlet_steps n dt bodies)
        = Vec.add (mass_moment bodies)
            (Vec.scale (INR n * dt)%R (momentum bodies))).
Proof.
  split; [apply moment_verlet |].
  intros Hprimed n.
  assert (forall k, momentum (verlet_steps k dt bodies) = momentum bodies)
    as Hmom.
  { intros k. induction k as [| k IH]; [done |].
    change (verlet_steps (S k) dt bodies)
      with (verlet_integration (verlet_steps k dt bodies) dt).
    rewrite momentum_verlet, IH.
    rewrite (net_force_steps k dt bodies (primed_net_force _ Hprimed)).
    by rewrite scale_zeros, add_zeros_r. }
  induction n as [| n IH].
  - simpl. apply vec_eq; simpl; lra.
  - change (verlet_steps (S n) dt bodies)
      with (verlet_integration (verlet_steps n dt bodies) dt).
    rewrite moment_verlet, IH, Hmom.
    rewrite (net_force_steps n dt bodies (primed_net_force _ Hprimed)).
    rewrite S_INR. apply vec_eq; simpl; lra.
Qed.

(** ** Properties of the simulation loop of main.py *)

Section RunFacts.
Variable bodies : list Body.

Lemma store_S steps :
  store (simulate bodies (S steps))
  = check_and_merge_collisions
      (verlet_integration (store (simulate bodies steps)) dt) 1e7.
Proof. rewrite simulate_S. unfold turn. by destruct (_ =? _). Qed.

Lemma Data_S steps :
  Data (simulate bodies (S steps))
  = if Nat.eqb (steps mod 10) 0
    then Data (simulate bodies steps)
           ++ [take_snapshot (store (simulate bodies (S steps)))]
    else Data (simulate bodies steps).
Proof.
  rewrite store_S, simulate_S. unfold turn. by destruct (_ =? _).
Qed.

Lemma store_0 :
  store (simulate bodies 0) = compute_gravitational_accelerations bodies.
Proof. done. Qed.

Lemma store_length_S steps :
  length (store (simulate bodies (S steps)))
  <= length (store (simulate bodies steps)).
Proof.
  rewrite store_S. unfold check_and_merge_collisions.
  etrans; [apply outer_scan_length |]. by rewrite verlet_length.
Qed.

Lemma store_length_mono n m :
  n <= m ->
  length (store (simulate bodies m)) <= length (store (simulate bodies n)).
Proof.
  induction 1 as [| m _ IH]; [done |].
  pose proof (store_length_S m). lia.
Qed.

Lemma store_nonempty steps :
  0 < length bodies -> 0 < length (store (simulate bodies steps)).
Proof.
  intros Hlen. induction steps as [| steps IH].
  - by rewrite store_0, compute_length.
  - rewrite store_S. unfold check_and_merge_collisions.
    rewrite outer_scan_turn, verlet_length.
    case_decide; [| lia].
    pose proof (inner_scan_front 1e7 0 1
                  (verlet_integration (store (simulate bodies steps)) dt))
      as Hin.
    rewrite verlet_length in Hin. specialize (Hin ltac:(lia)).
    pose proof (outer_scan_front 1e7 1 _ Hin). lia.
Qed.

Lemma total_mass_of_masses (l1 l2 : list Body) :
  mass <$> l1 = mass <$> l2 -> total_mass l1 = total_mass l2.
Proof. unfold total_mass. by intros ->. Qed.

Lemma Data_prefix_S steps :
  Data (simulate bodies steps) `prefix_of` Data (simulate bodies (S steps)).
Proof.
  rewrite Data_S. destruct (_ =? _); [| done]. by apply prefix_app_r.
Qed.

Lemma snapshot_count steps :
  length (Data (simulate bodies steps)) = (steps + 9) / 10.
Proof.
  induction steps as [| steps IH]; [done |].
  rewrite Data_S.
  pose proof (Nat.div_mod_eq steps 10) as Hdm.
  pose proof (Nat.mod_upper_bound steps 10 ltac:(lia)) as Hlt.
  destruct (Nat.eqb_spec (steps mod 10) 0) as [H0 | Hn0].
  - rewrite length_app, IH. simpl length.
    rewrite <- (Nat.div_unique (steps + 9) 10 (steps / 10) 9) by lia.
    rewrite <- (Nat.div_unique (S steps + 9) 10 (S (steps / 10)) 0) by lia.
    lia.
  - rewrite IH.
    rewrite <- (Nat.div_unique (steps + 9) 10 (S (steps / 10))
               (steps mod 10 - 1)) by lia.
    rewrite <- (Nat.div_unique (S steps + 9) 10 (S (steps / 10))
               (steps mod 10)) by lia.
    done.
Qed.
End RunFacts.

(** X17. A run of [steps] turns emits one snapshot for every tenth turn,
    the first turn included: [Data] ends with [ceil(steps / 10)] entries,
    and none for a run of no turn. *)
Theorem one_snapshot_every_ten_turns (bodies : list Body) (steps : nat) :
  length (Data (simulate bodies steps)) = (steps + 9) / 10.
Proof. apply snapshot_count. Qed.

(** X18. [Data] only grows at its end: the snapshots of a shorter run are
    the first snapshots of any longer run on the same bodies. *)
Theorem snapshots_are_never_rewritten (bodies : list Body) (n m : nat) :
  n <= m ->
  Data (simulate bodies n) `prefix_of` Data (simulate bodies m).
Proof.
  induction 1 as [| m _ IH]; [done |].
  etrans; [apply IH | apply Data_prefix_S].
Qed.

Lemma snapshots_are_never_rewritten_witness :
  Data (simulate [earth; moon] 5) `prefix_of` Data (simulate [earth; moon] 30).
Proof.
  apply (snapshots_are_never_rewritten [earth; moon] 5 30). lia.
Defined.

(** X19. Along a run the list of bodies never gets longer and never gets
    empty: after more turns it holds at most as many bodies as after fewer
    turns, at most as many as at the start, and at least one when there
    was one at the start. *)
Theorem body_count_only_falls (bodies : list Body) (n m : nat) :
  n <= m ->
  length (store (simulate bodies m)) <= length (store (simulate bodies n))
  /\ length (store (simulate bodies n)) <= length bodies
  /\ (0 < length bodies -> 0 < length (store (simulate bodies m))).
Proof.
  intros Hnm. split; [by apply store_length_mono |]. split.
  - pose proof (store_length_mono bodies 0 n ltac:(lia)) as H0.
    by rewrite store_0, compute_length in H0.
  - apply store_nonempty.
Qed.

Lemma body_count_only_falls_witness :
  length (store (simulate [earth; moon] 7))
    <= length (store (simulate [earth; moon] 3))
  /\ length (store (simulate [earth; moon] 3)) <= length [earth; moon]
  /\ (0 < length [earth; moon]
      -> 0 < length (store (simulate [earth; moon] 7))).
Proof. apply (body_count_only_falls [earth; moon] 3 7). lia. Defined.

(** X20. A run neither creates nor loses mass: after any number of turns,
    merges included, the masses in the list add up to what they added up
    to at the start, and they are all strictly positive if they were. *)
Theorem run_keeps_total_mass (bodies : list Body) (steps : nat) :
  total_mass (store (simulate bodies steps)) = total_mass bodies
  /\ (Forall (fun b => (0 < mass b)%R) bodies ->
      Forall (fun b => (0 < mass b)%R) (store (simulate bodies steps))).
Proof.
  induction steps as [| steps [IHm IHp]].
  - rewrite store_0. split.
    + apply total_mass_of_masses, compute_keeps_mass.
    + intros Hpos.
      apply (Forall_fmap mass (fun m => (0 < m)%R)).
      rewrite compute_keeps_mass. by apply Forall_fmap.
  - rewrite store_S. split.
    + destruct (outer_scan_conserves 1e7 (fun _ => True)
                  (fun b => mkVec3 (mass b) 0 0)
                  ltac:(done) ltac:(intros; apply vec_eq; simpl; lra)
                  0 (verlet_integration (store (simulate bodies steps)) dt))
        as [_ Hsum]; [by apply Forall_forall |].
      rewrite !total_mass_sum in Hsum. injection Hsum as Hsum.
      unfold check_and_merge_collisions. rewrite Hsum, <- IHm.
      apply total_mass_of_masses, verlet_keeps_mass.
    + intros Hpos. apply outer_scan_mass_pos.
      apply (Forall_fmap mass (fun m => (0 < m)%R)).
      rewrite verlet_keeps_mass. apply Forall_fmap. by apply IHp.
Qed.

(** X21. No emitted snapshot has more keys than the run had bodies at its
    start. *)
Theorem snapshot_has_at_most_initial_count (bodies : list Body)
    (steps : nat) (snap : gmap string (list R)) :
  snap ∈ Data (simulate bodies steps) -> size snap <= length bodies.
Proof.
  intros Hin. apply emitted_snapshots in Hin as (k & _ & ->).
  rewrite snapshot_size.
  etrans; [apply size_names_le |]. rewrite length_fmap.
  pose proof (store_length_mono bodies 0 (S (10 * k)) ltac:(lia)) as H0.
  by rewrite store_0, compute_length in H0.
Qed.

Lemma snapshot_has_at_most_initial_count_witness :
  size (take_snapshot (store (simulate [earth; moon] 1)))
  <= length [earth; moon].
Proof.
  apply (snapshot_has_at_most_initial_count [earth; moon] 1).
  rewrite Data_S. cbn [Nat.modulo Nat.divmod Nat.eqb fst snd].
  apply elem_of_app. right. by apply list_elem_of_singleton.
Defined.

(** ** Properties of get_objects_from_user *)

Section ProviderProperties.
Variable float : string -> option R.
Variable split : string -> list string.

Lemma prompt_vector_runs_dry stdin :
  database.prompt_vector float split stdin = database.EOFError
  <-> Forall (database.malformed float split) stdin.
Proof.
  induction stdin as [| line stdin IH]; [done |].
  simpl. unfold database.malformed at 1.
  destruct (database.floats float split line) as [v |] eqn:Ev.
  - destruct (Nat.eqb_spec (length v) 3) as [Hlen | Hlen].
    + split; [done |]. intros Hall. apply Forall_cons in Hall as [Hline _].
      by destruct (Hline v Ev).
    + rewrite IH. split.
      * intros Hall. constructor; [| done].
        intros w Hw. rewrite Ev in Hw. by injection Hw as <-.
      * by intros [_ Hall]%Forall_cons.
  - rewrite IH. split.
    + intros Hall. constructor; [| done]. intros w Hw. congruence.
    + by intros [_ Hall]%Forall_cons.
Qed.

Lemma prompt_vector_returns stdin v rest :
  database.prompt_vector float split stdin = database.Returned v rest
  <-> exists junk line,
        stdin = junk ++ line :: rest
        /\ Forall (database.malformed float split) junk
        /\ database.floats float split line = Some v
        /\ length v = 3.
Proof.
  split.
  - induction stdin as [| line stdin IH]; [done |].
    simpl. destruct (database.floats float split line) as [w |] eqn:Ew.
    + destruct (Nat.eqb_spec (length w) 3) as [Hlen | Hlen].
      * intros [= <- <-]. exists [], line. by repeat split.
      * intros (junk & l & -> & Hjunk & Hl & Hv)%IH.
        exists (line :: junk), l. repeat split; try done.
        constructor; [| done]. intros u Hu. rewrite Ew in Hu.
        by injection Hu as <-.
    + intros (junk & l & -> & Hjunk & Hl & Hv)%IH.
      exists (line :: junk), l. repeat split; try done.
      constructor; [| done]. intros u Hu. congruence.
  - intros (junk & line & -> & Hjunk & Hl & Hv).
    rewrite prompt_vector_asks_again by done.
    by apply prompt_vector_accepts.
Qed.

Lemma prompt_vector_no_ValueError stdin :
  database.prompt_vector float split stdin ≠ database.ValueError.
Proof.
  induction stdin as [| line stdin IH]; [done |].
  simpl. destruct (database.floats float split line) as [w |]; [| done].
  by destruct (length w =? 3).
Qed.

Lemma enter_objects_acc n acc stdin :
  database.enter_objects float split n acc stdin
  = database.bind (database.enter_objects float split n [] stdin)
      (fun bs rest => database.Returned (acc ++ bs) rest).
Proof.
  revert acc stdin. induction n as [| n IH]; intros acc stdin; simpl.
  - by rewrite app_nil_r.
  - destruct (database.enter_object float split stdin) as [o s1 | |];
      simpl; try done.
    rewrite (IH (acc ++ [o])), (IH [o]).
    destruct (database.enter_objects float split n [] s1) as [bs r | |];
      simpl; try done.
    by rewrite <- app_assoc.
Qed.

Lemma enter_object_suffix stdin o rest :
  database.enter_object float split stdin = database.Returned o rest ->
  rest `suffix_of` stdin
  /\ database.name o ∈ stdin
  /\ database.acceleration o = [0%R; 0%R; 0%R]
  /\ exists later, stdin = database.name o :: later /\ rest `suffix_of` later.
Proof.
  unfold database.enter_object.
  destruct stdin as [| nm [| mass_line stdin]]; try done. simpl.
  destruct (float mass_line) as [m |]; [| done].
  destruct (database.prompt_vector float split stdin) as [p s1 | |] eqn:Ep;
    try done. simpl.
  destruct (database.prompt_vector float split s1) as [v s2 | |] eqn:Ev;
    try done. simpl.
  intros [= <- ->].
  apply prompt_vector_returns in Ep as (j1 & l1 & -> & _).
  apply prompt_vector_returns in Ev as (j2 & l2 & -> & _).
  assert (rest `suffix_of` mass_line :: j1 ++ l1 :: j2 ++ l2 :: rest) as Hs.
  { exists (mass_line :: j1 ++ l1 :: j2 ++ [l2]).
    simpl. f_equal. rewrite <- !app_assoc. simpl. f_equal. f_equal.
    by rewrite <- app_assoc. }
  simpl. repeat split.
  - by apply suffix_cons_r.
  - by left.
  - eexists. split; [done | done].
Qed.
End ProviderProperties.

Section ProviderOrder.
Variable float : string -> option R.
Variable split : string -> list string.

(** The objects come out in the order of entry: their names are lines of
    the input, in their order, and what is left of the input is its end. *)
Lemma enter_objects_order n stdin bodies rest :
  database.enter_objects float split n [] stdin
  = database.Returned bodies rest ->
  rest `suffix_of` stdin
  /\ database.name <$> bodies `sublist_of` stdin
  /\ Forall (fun o => database.acceleration o = [0%R; 0%R; 0%R]) bodies.
Proof.
  revert stdin bodies rest.
  induction n as [| n IH]; intros stdin bodies rest; simpl.
  - intros [= <- <-]. repeat split; [done | apply sublist_nil_l | done].
  - destruct (database.enter_object float split stdin) as [o s1 | |] eqn:Eo;
      try done. simpl.
    rewrite enter_objects_acc.
    destruct (database.enter_objects float split n [] s1) as [bs r | |] eqn:En;
      try done. simpl.
    intros [= <- <-].
    apply enter_object_suffix in Eo as (Hs1 & _ & Hacc & later & -> & Hlater).
    apply IH in En as (Hr & Hnames & Haccs).
    repeat split.
    + etrans; [apply Hr | done].
    + rewrite fmap_cons. apply sublist_skip.
      destruct Hlater as [k ->]. by apply sublist_inserts_l.
    + by constructor.
Qed.
End ProviderOrder.

(** X22. A vector prompt of get_objects_from_user never ends in a
    ValueError.  It returns the first line that gives exactly 3 floats,
    having skipped the lines before it, and it ends in EOFError exactly
    when no line left in the input gives 3 floats. *)
Theorem vector_prompt_gives_up_only_at_end_of_input
    (float : string -> option R) (split : string -> list string)
    (stdin : list string) :
  database.prompt_vector float split stdin ≠ database.ValueError
  /\ (database.prompt_vector float split stdin = database.EOFError
      <-> Forall (database.malformed float split) stdin)
  /\ (forall v rest,
        database.prompt_vector float split stdin = database.Returned v rest
        <-> exists junk line,
              stdin = junk ++ line :: rest
              /\ Forall (database.malformed float split) junk
              /\ database.floats float split line = Some v
              /\ length v = 3).
Proof.
  split; [apply prompt_vector_no_ValueError |].
  split; [apply prompt_vector_runs_dry |].
  intros v rest. apply prompt_vector_returns.
Qed.

(** X23. get_objects_from_user asked for one object ends in a ValueError
    exactly when the second line of the input, the mass, is not a float;
    a bad position or velocity line never does that. *)
Theorem only_a_bad_mass_raises_ValueError
    (float : string -> option R) (split : string -> list string)
    (stdin : list string) :
  database.get_objects_from_user float split 1 stdin = database.ValueError
  <-> exists nm mass_line rest,
        stdin = nm :: mass_line :: rest /\ float mass_line = None.
Proof.
  unfold database.get_objects_from_user. simpl.
  unfold database.enter_object.
  destruct stdin as [| nm [| mass_line stdin]]; simpl.
  - split; [done |]. by intros (? & ? & ? & ? & _).
  - split; [done |]. by intros (? & ? & ? & ? & _).
  - destruct (float mass_line) as [m |] eqn:Em.
    + split.
      * pose proof (prompt_vector_no_ValueError float split stdin) as Hp.
        destruct (database.prompt_vector float split stdin) as [p s1 | |];
          simpl; try done.
        pose proof (prompt_vector_no_ValueError float split s1) as Hv.
        by destruct (database.prompt_vector float split s1) as [v s2 | |].
      * intros (? & ? & ? & [= _ <- _] & Hnone). congruence.
    + split; [| done]. intros _. by exists nm, mass_line, stdin.
Qed.

(** X24. Edge cases of get_objects_from_user: asked for no object it
    returns the empty list and reads nothing; asked for one or more it
    ends in EOFError when the input has no line, only a name, or only a
    name and a mass. *)
Theorem provider_edge_cases
    (float : string -> option R) (split : string -> list string) :
  (forall stdin,
     database.get_objects_from_user float split 0 stdin
     = database.Returned [] stdin)
  /\ (forall n,
        database.get_objects_from_user float split (S n) []
        = database.EOFError)
  /\ (forall n nm,
        database.get_objects_from_user float split (S n) [nm]
        = database.EOFError)
  /\ (forall n nm mass_line m,
        float mass_line = Some m ->
        database.get_objects_from_user float split (S n) [nm; mass_line]
        = database.EOFError).
Proof.
  split; [done |]. split; [done |]. split; [done |].
  intros n nm mass_line m Hm.
  unfold database.get_objects_from_user. simpl.
  unfold database.enter_object. simpl. by rewrite Hm.
Qed.

(** X25. Entering [n + m] objects is entering [n] and then [m] from what
    is left of the input, the two lists joined; an error in either part is
    the error of the whole. *)
Theorem provider_calls_compose
    (float : string -> option R) (split : string -> list string)
    (n m : nat) (stdin : list string) :
  database.get_objects_from_user float split (n + m) stdin
  = database.bind (database.get_objects_from_user float split n stdin)
      (fun first rest =>
         database.bind (database.get_objects_from_user float split m rest)
           (fun second rest' => database.Returned (first ++ second) rest')).
Proof.
  unfold database.get_objects_from_user.
  revert stdin. induction n as [| n IH]; intros stdin; simpl.
  - by destruct (database.enter_objects float split m [] stdin).
  - destruct (database.enter_object float split stdin) as [o s1 | |];
      simpl; try done.
    rewrite (enter_objects_acc float split (n + m) [o]), IH.
    rewrite (enter_objects_acc float split n [o]).
    destruct (database.enter_objects float split n [] s1) as [bs r | |];
      simpl; try done.
    by destruct (database.enter_objects float split m [] r) as [bs' r' | |].
Qed.

(** X26. What get_objects_from_user returns follows the input: the names
    of the objects are lines of the input in the order they were typed,
    the input left over is the end of the input given, and every object
    starts with a zero acceleration. *)
Theorem provider_follows_the_input
    (float : string -> option R) (split : string -> list string)
    (n : nat) (stdin rest : list string) (bodies : list database.Object) :
  database.get_objects_from_user float split n stdin
  = database.Returned bodies rest ->
  rest `suffix_of` stdin
  /\ database.name <$> bodies `sublist_of` stdin
  /\ Forall (fun o => database.acceleration o = [0%R; 0%R; 0%R]) bodies.
Proof. apply enter_objects_order. Qed.

Lemma provider_follows_the_input_witness :
  [] `suffix_of` ["A"; "-5"; "1 2"; "0 0 0"; "0 0 0"]
  /\ database.name
       <$> [database.Object_init "A" (IZR (-5)) [IZR 0; IZR 0; IZR 0]
              [IZR 0; IZR 0; IZR 0]]
     `sublist_of` ["A"; "-5"; "1 2"; "0 0 0"; "0 0 0"]
  /\ Forall (fun o => database.acceleration o = [0%R; 0%R; 0%R])
       [database.Object_init "A" (IZR (-5)) [IZR 0; IZR 0; IZR 0]
          [IZR 0; IZR 0; IZR 0]].
Proof.
  apply (provider_follows_the_input database.float_literal
           database.str_split 1 ["A"; "-5"; "1 2"; "0 0 0"; "0 0 0"]).
  reflexivity.
Defined.

(** ** Properties of get_star_cluster *)

Section ClusterProperties.
Variable rng : Type.
Variable normal3 : R -> R -> rng -> Vec3 * rng.
Variable uniform : R -> R -> rng -> R * rng.

Lemma cluster_S n g :
  database.get_star_cluster rng normal3 uniform (S n) g
  = let st := database.get_star_cluster rng normal3 uniform n g in
    let '(o, g') := database.draw_star rng normal3 uniform n st.2 in
    (st.1 ++ [o], g').
Proof. unfold database.get_star_cluster. by rewrite seq_S, fold_left_app. Qed.

Lemma draw_star_name i g :
  database.name (database.draw_star rng normal3 uniform i g).1
  = "Star" +:+ pretty (i + 1).
Proof.
  unfold database.draw_star.
  destruct (normal3 0 1 g) as [pos g1].
  destruct (uniform 0 database.cluster_radius g1) as [r g2].
  destruct (uniform 1e29 2e31 g2) as [m g3].
  by destruct (normal3 0 database.v_scale g3) as [vel g4].
Qed.

Lemma draw_star_shaped i g :
  database.shaped (database.draw_star rng normal3 uniform i g).1.
Proof.
  unfold database.draw_star.
  destruct (normal3 0 1 g) as [pos g1].
  destruct (uniform 0 database.cluster_radius g1) as [r g2].
  destruct (uniform 1e29 2e31 g2) as [m g3].
  destruct (normal3 0 database.v_scale g3) as [vel g4].
  repeat split. by eexists.
Qed.

Lemma star_names_inj : Inj (=) (=) (fun i : nat => "Star" +:+ pretty (i + 1)).
Proof.
  intros i j H.
  assert (pretty (i + 1) = pretty (j + 1)) as Hp by (by injection H).
  apply (inj pretty) in Hp. lia.
Qed.

Lemma cluster_names n g :
  database.name <$> (database.get_star_cluster rng normal3 uniform n g).1
  = (fun i => "Star" +:+ pretty (i + 1)) <$> seq 0 n.
Proof.
  induction n as [| n IH]; [done |].
  rewrite cluster_S, seq_S, fmap_app. cbv zeta.
  pose proof (draw_star_name n
                (database.get_star_cluster rng normal3 uniform n g).2) as Hn.
  destruct (database.draw_star _ _ _ n _) as [o g'].
  cbn [fst snd] in *. rewrite fmap_app, IH. f_equal.
  change (0 + n) with n. by rewrite !fmap_cons, Hn.
Qed.

Lemma cluster_shaped n g :
  Forall database.shaped
    (database.get_star_cluster rng normal3 uniform n g).1.
Proof.
  induction n as [| n IH]; [by constructor |].
  rewrite cluster_S. cbv zeta.
  pose proof (draw_star_shaped n
                (database.get_star_cluster rng normal3 uniform n g).2) as Hn.
  destruct (database.draw_star _ _ _ n _) as [o g'].
  cbn [fst snd] in *. apply Forall_app. by split; [| constructor].
Qed.
End ClusterProperties.

(** X27. Whatever the random generator draws, get_star_cluster returns as
    many objects as asked for, named Star1, Star2, ... in this order, so
    no two share a name, each with a position and a velocity of 3
    components. *)
Theorem star_cluster_has_distinct_names (rng : Type)
    (normal3 : R -> R -> rng -> Vec3 * rng)
    (uniform : R -> R -> rng -> R * rng) (n_stars : nat) (g : rng) :
  length (database.get_star_cluster rng normal3 uniform n_stars g).1
    = n_stars
  /\ database.name
       <$> (database.get_star_cluster rng normal3 uniform n_stars g).1
     = (fun i => "Star" +:+ pretty (i + 1)) <$> seq 0 n_stars
  /\ NoDup (database.name
              <$> (database.get_star_cluster rng normal3 uniform n_stars g).1)
  /\ Forall database.shaped
       (database.get_star_cluster rng normal3 uniform n_stars g).1.
Proof.
  pose proof (cluster_names rng normal3 uniform n_stars g) as Hnames.
  split; [| split; [done | split]].
  - rewrite <- (length_fmap database.name), Hnames, length_fmap.
    apply length_seq.
  - rewrite Hnames.
    apply (@NoDup_fmap_2 _ _ _ star_names_inj).
    apply NoDup_seq.
  - apply cluster_shaped.
Qed.

Section ClusterRanges.
Local Open Scope R_scope.

Lemma norm_unit v : v ≠ Vec.zeros -> Vec.norm (Vec.div v (Vec.norm v)) = 1.
Proof.
  intros Hv.
  assert (0 < Vec.norm v) as Hpos.
  { pose proof (norm_nonneg v).
    destruct (Req_dec (Vec.norm v) 0) as [H0 | H0]; [| lra].
    by apply norm_eq_0 in H0. }
  replace (Vec.div v (Vec.norm v)) with (Vec.scale (/ Vec.norm v) v)
    by (apply vec_eq; simpl; unfold Rdiv; ring).
  rewrite norm_scale, Rabs_pos_eq.
  - apply Rinv_l. lra.
  - apply Rlt_le, Rinv_0_lt_compat. done.
Qed.

Variable rng : Type.
Variable normal3 : R -> R -> rng -> Vec3 * rng.
Variable uniform : R -> R -> rng -> R * rng.
Hypothesis uniform_range :
  forall low high g, low < high -> low <= (uniform low high g).1 < high.
Hypothesis normal_nonzero : forall g, (normal3 0 1 g).1 ≠ Vec.zeros.

Definition in_range (o : database.Object) : Prop :=
  1e29 <= database.mass o < 2e31
  /\ exists p, database.as_vec3 (database.position o) = Some p
               /\ Vec.norm p < database.cluster_radius.

Lemma draw_star_in_range i g :
  in_range (database.draw_star rng normal3 uniform i g).1.
Proof.
  unfold database.draw_star.
  pose proof (normal_nonzero g) as Hdir.
  destruct (normal3 0 1 g) as [pos g1].
  pose proof (uniform_range 0 database.cluster_radius g1) as Hr.
  destruct (uniform 0 database.cluster_radius g1) as [r g2].
  pose proof (uniform_range 1e29 2e31 g2) as Hm.
  destruct (uniform 1e29 2e31 g2) as [m g3].
  destruct (normal3 0 database.v_scale g3) as [vel g4].
  cbn [fst snd] in *. unfold database.cluster_radius in *.
  split; [apply Hm; lra |].
  exists (Vec.scale r (Vec.div pos (Vec.norm pos))). split; [reflexivity |].
  rewrite norm_scale, norm_unit by done.
  specialize (Hr ltac:(lra)). unfold database.cluster_radius.
  rewrite Rabs_pos_eq; lra.
Qed.

Lemma cluster_in_range n g :
  Forall in_range (database.get_star_cluster rng normal3 uniform n g).1.
Proof.
  induction n as [| n IH]; [by constructor |].
  rewrite cluster_S. cbv zeta.
  pose proof (draw_star_in_range n
                (database.get_star_cluster rng normal3 uniform n g).2) as Hn.
  destruct (database.draw_star _ _ _ n _) as [o g'].
  cbn [fst snd] in *. apply Forall_app. by split; [| constructor].
Qed.
End ClusterRanges.

(** X28. If [np.random.uniform(low, high)] keeps to [low <= x < high] and
    [np.random.normal(size=3)] does not draw the zero vector, every star
    of get_star_cluster has a mass from 1e29 up to 2e31, so a positive
    one, and lies less than R = 5e9 km from the origin. *)
Theorem star_cluster_is_inside_its_sphere (rng : Type)
    (normal3 : R -> R -> rng -> Vec3 * rng)
    (uniform : R -> R -> rng -> R * rng) (n_stars : nat) (g : rng) :
  (forall low high g,
     (low < high)%R -> (low <= (uniform low high g).1 < high)%R) ->
  (forall g, (normal3 0%R 1%R g).1 ≠ Vec.zeros) ->
  Forall (fun o =>
            (1e29 <= database.mass o < 2e31)%R
            /\ exists p, database.as_vec3 (database.position o) = Some p
                         /\ (Vec.norm p < database.cluster_radius)%R)
    (database.get_star_cluster rng normal3 uniform n_stars g).1.
Proof. intros Hu Hn. by apply cluster_in_range. Qed.

Lemma star_cluster_is_inside_its_sphere_witness :
  Forall (fun o =>
            (1e29 <= database.mass o < 2e31)%R
            /\ exists p, database.as_vec3 (database.position o) = Some p
                         /\ (Vec.norm p < database.cluster_radius)%R)
    (database.get_star_cluster unit database.steady_normal3
       database.steady_uniform 3 tt).1.
Proof.
  apply (star_cluster_is_inside_its_sphere unit database.steady_normal3
           database.steady_uniform 3 tt).
  - intros low high g Hlt. simpl. lra.
  - intros g H. apply (f_equal vx) in H. simpl in H. lra.
Defined.

(** ** Properties of Animation.py *)

Section AnimationProperties.
Local Open Scope R_scope.

Lemma fold_min_le xs x : fold_left Rmin xs x <= x.
Proof.
  revert x. induction xs as [| y xs IH]; intros x; simpl; [lra |].
  etrans; [apply IH | apply Rmin_l].
Qed.

Lemma fold_min_elem xs x y : y ∈ xs -> fold_left Rmin xs x <= y.
Proof.
  revert x. induction xs as [| z xs IH]; intros x Hy; [by apply elem_of_nil in Hy |].
  apply elem_of_cons in Hy as [-> | Hy]; simpl.
  - etrans; [apply fold_min_le | apply Rmin_r].
  - by apply IH.
Qed.

Lemma fold_max_ge xs x : x <= fold_left Rmax xs x.
Proof.
  revert x. induction xs as [| y xs IH]; intros x; simpl; [lra |].
  etrans; [apply Rmax_l | apply IH].
Qed.

Lemma fold_max_elem xs x y : y ∈ xs -> y <= fold_left Rmax xs x.
Proof.
  revert x. induction xs as [| z xs IH]; intros x Hy; [by apply elem_of_nil in Hy |].
  apply elem_of_cons in Hy as [-> | Hy]; simpl.
  - etrans; [apply Rmax_r | apply fold_max_ge].
  - by apply IH.
Qed.

Lemma mapM_lookup_elem (k : nat) (rows : list (list R)) xs row x :
  mapM (fun r : list R => r !! k) rows = Some xs ->
  row ∈ rows -> row !! k = Some x -> x ∈ xs.
Proof.
  intros Hm Hrow Hx. apply mapM_Some in Hm.
  apply list_elem_of_lookup in Hrow as [i Hi].
  destruct (Forall2_lookup_l _ _ _ i row Hm Hi) as (y & Hy & Hry).
  apply list_elem_of_lookup. exists i. congruence.
Qed.

Lemma slice_last (data : list (gmap string (list R))) a frame current :
  (a <= frame)%nat -> data !! frame = Some current ->
  take (frame + 1 - a) (drop a data) = take (frame - a) (drop a data) ++ [current].
Proof.
  intros Ha E.
  replace (frame + 1 - a)%nat with (S (frame - a)) by lia.
  apply take_S_r. rewrite lookup_drop. rewrite <- E. f_equal. lia.
Qed.

Lemma omap_length_le {A B : Type} (f : A -> option B) (l : list A) :
  (length (omap f l) <= length l)%nat.
Proof.
  induction l as [| a l IH]; [done |].
  cbn [omap list_omap]. change (list_omap _ _ f l) with (omap f l).
  destruct (f a); simpl; lia.
Qed.

Lemma object_names_from (names : gset string) data name :
  name ∈ fold_left (fun (ns : gset string) (snapshot : gmap string (list R)) =>
                      ns ∪ dom snapshot) data names
  <-> name ∈ names \/ exists snapshot, snapshot ∈ data /\ name ∈ dom snapshot.
Proof.
  revert names. induction data as [| snap data IH]; intros names; simpl.
  - split; [by left |]. intros [H | (s & Hs & _)]; [done |].
    by apply elem_of_nil in Hs.
  - rewrite IH, elem_of_union. split.
    + intros [[H | H] | (s & Hs & Hn)].
      * by left.
      * right. exists snap. split; [by left | done].
      * right. exists s. split; [by right | done].
    + intros [H | (s & Hs & Hn)]; [by left; left |].
      apply elem_of_cons in Hs as [-> | Hs].
      * by left; right.
      * right. by exists s.
Qed.
End AnimationProperties.

(** X29. Whenever update(frame) draws a name, the name is one of
    [object_names], and its trail is not empty, ends at the point drawn in
    this frame, and has at most TRAIL_LENGTH + 1 points, none from after
    the frame; so the columns taken of the trail array exist. *)
Theorem trail_ends_at_the_point_drawn (data : list (gmap string (list R)))
    (frame : nat) (name : string) (pos : list R) (trail : list (list R)) :
  Animation.update data frame name = Some (Some (pos, trail)) ->
  name ∈ Animation.object_names data
  /\ last trail = Some pos
  /\ 0 < length trail <= Animation.TRAIL_LENGTH + 1
  /\ length trail <= frame + 1.
Proof.
  unfold Animation.update, Animation.trail_data, Animation.window.
  set (tl := Animation.TRAIL_LENGTH). clearbody tl.
  destruct (data !! frame) as [current |] eqn:E; [| done].
  destruct (current !! name) as [obj_data |] eqn:En; [| done].
  intros [= <- <-]. split.
  { apply object_names_from. right. exists current. split.
    - by eapply list_elem_of_lookup_2.
    - apply elem_of_dom. by eexists. }
  rewrite (slice_last data (frame - tl) frame current ltac:(lia) E).
  rewrite omap_app. cbn [omap list_omap]. rewrite En.
  cbn [fmap option_fmap option_map].
  rewrite last_snoc, length_app. cbn [length]. split; [done |].
  pose proof (omap_length_le
                (fun snap : gmap string (list R) => take 3 <$> snap !! name)
                (take (frame - (frame - tl)) (drop (frame - tl) data))) as Hle.
  rewrite length_take in Hle. lia.
Qed.

Lemma trail_ends_at_the_point_drawn_witness :
  "Earth" ∈ Animation.object_names [take_snapshot [earth]]
  /\ last [coordinates earth] = Some (coordinates earth)
  /\ 0 < length [coordinates earth] <= Animation.TRAIL_LENGTH + 1
  /\ length [coordinates earth] <= 0 + 1.
Proof.
  apply (trail_ends_at_the_point_drawn [take_snapshot [earth]] 0 "Earth"
           (coordinates earth) [coordinates earth]).
  reflexivity.
Defined.

(** X30. The axis limits Animation.py sets hold every recorded point: for
    each axis, every coordinate found in any snapshot lies between the
    lower and the upper limit.  With no recorded position at all the
    limits cannot be computed (the array has no column to take); with at
    least one, and 3 coordinates in each, they can for each of the three
    axes. *)
Theorem axis_limits_hold_every_point (k : nat)
    (data : list (gmap string (list R))) :
  match Animation.limits k data with
  | Some (low, high) =>
      forall row x,
        row ∈ Animation.all_positions data -> row !! k = Some x ->
        (low <= x <= high)%R
  | None => True
  end
  /\ (Animation.all_positions data = [] -> Animation.limits k data = None)
  /\ (Animation.all_positions data ≠ [] ->
      Forall (fun row => length row = 3) (Animation.all_positions data) ->
      k < 3 -> is_Some (Animation.limits k data)).
Proof.
  split; [| split; [by unfold Animation.limits; intros -> |]]; cycle 1.
  { unfold Animation.limits, Animation.column.
    destruct (Animation.all_positions data) as [| row0 rows]; [done |].
    intros _ Hall Hk.
    assert (forallb (fun r => Nat.eqb (length r) (length row0)) (row0 :: rows)
            = true) as ->.
    { apply Is_true_eq_true, forallb_True.
      pose proof (Forall_inv Hall) as H0.
      eapply Forall_impl; [apply Hall |]. intros r Hr. cbv beta.
      rewrite Hr, H0. done. }
    destruct (mapM_is_Some_2 (fun r : list R => r !! k) (row0 :: rows))
      as [xs Hxs].
    { eapply Forall_impl; [apply Hall |]. intros r Hr. cbv beta in Hr.
      unfold compose. apply lookup_lt_is_Some. lia. }
    rewrite Hxs. apply mapM_Some, Forall2_length in Hxs.
    destruct xs as [| x0 xs]; [done |]. by eexists. }
  unfold Animation.limits, Animation.column.
  destruct (Animation.all_positions data) as [| row0 rows] eqn:Erows; [done |].
  destruct (forallb _ _); [| done].
  destruct (mapM _ (row0 :: rows)) as [xs |] eqn:Exs; [| done].
  destruct xs as [| x0 xs]; [done |]. cbn [Animation.np_min Animation.np_max].
  intros row x Hrow Hx.
  pose proof (mapM_lookup_elem k (row0 :: rows) (x0 :: xs) row x Exs Hrow Hx)
    as Hin.
  pose proof (fold_min_le xs x0). pose proof (fold_max_ge xs x0).
  assert (fold_left Rmin xs x0 <= x <= fold_left Rmax xs x0)%R as [Hlo Hhi].
  { apply elem_of_cons in Hin as [-> | Hin]; [done |].
    split; [by apply fold_min_elem | by apply fold_max_elem]. }
  lra.
Qed.
